(** * Auto-Eval-ai: a shallow embedding of the page-alignment and
    segmentation pipeline (src/Models/Segment.py, src/Alignment/train.py,
    src/Alignment/model.py).

    Floating-point quantities are modelled as rationals [Q] where only field
    operations and comparisons are used, and as reals [R] where the code
    takes square roots or angles.  Pixel coordinates and counts are [Z].
    The image filters of OpenCV / scikit-image (thresholding, contours,
    warping) are not embedded: their results enter the functions below as
    inputs, and the decision logic of the repository's code around them is
    translated line by line. *)

From Stdlib Require Import ZArith QArith Qminmax Qabs Lqa Lia List Permutation Sorted Bool.
From Stdlib Require Import Reals Psatz.
From Stdlib Require Ascii String.
Import ListNotations.

(* ================================================================== *)
(** ** Segment.py: configuration constants and alignment confidence *)
(* ================================================================== *)

Module Confidence.

Open Scope Q_scope.

(** [CONFIDENCE_THRESHOLD], [RESIDUAL_MAD_THRESHOLD], ... (Segment.py, CONFIG). *)
Definition TEMPLATE_W : Z := 1700%Z.
Definition TEMPLATE_H : Z := 2200%Z.
Definition CONFIDENCE_THRESHOLD : Q := 60 # 100.
Definition RESIDUAL_MAD_THRESHOLD : Q := 30.
Definition ROTATION_THRESHOLD_DEG : Q := 10.
Definition SCALE_PERCENT_THRESHOLD : Q := 10.
Definition PERSPECTIVE_DISTORTION_PCT : Q := 8.
Definition MIN_DOC_AREA_RATIO : Q := 4 # 1000.
Definition SIZE_TOL_PCT : Q := 2 # 100.

(** Strict comparison as a boolean (Python's [<] on floats). *)
Definition Qltb (x y : Q) : bool := negb (Qle_bool y x).

(** [np.clip(a, lo, hi)] = [minimum(maximum(a, lo), hi)]. *)
Definition clip (a lo hi : Q) : Q := Qmin (Qmax a lo) hi.

(** A float that may be [inf]: [stats['median_reproj_err']] starts as
    [float('inf')] and stays so when RANSAC reports no inlier. *)
Inductive ext : Type :=
| Fin (q : Q)
| PosInf.

(** The dictionary [stats] built by [compute_homography_via_features]. *)
Record stats := mk_stats {
  matches : Z;
  inliers : Z;
  median_reproj_err : ext
}.

(** [compute_alignment_confidence_from_stats] (Segment.py 228-238).  For
    [reproj = inf], [1.0 - inf/50.0] is [-inf] and the clip gives [0.0]. *)
Definition compute_alignment_confidence_from_stats
    (st : stats) (fallback : bool) (doc_area_ratio : Q) : Q :=
  if fallback then clip ((doc_area_ratio - (2 # 10)) / (75 # 100)) 0 1
  else
    if (matches st <=? 0)%Z then 0
    else
      let inlier_ratio := inject_Z (inliers st) / inject_Z (matches st) in
      let reproj_norm :=
        match median_reproj_err st with
        | Fin reproj => clip (1 - reproj / 50) 0 1
        | PosInf => 0
        end in
      let score := (7 # 10) * inlier_ratio + (3 # 10) * reproj_norm in
      clip score 0 1.

(** The two formulas as the specification words them. *)
Definition feature_confidence_spec (inl mat : Z) (reproj : Q) : Q :=
  if (mat <=? 0)%Z then 0
  else clip ((7 # 10) * (inject_Z inl / inject_Z mat)
             + (3 # 10) * clip (1 - reproj / 50) 0 1) 0 1.

Definition area_confidence_spec (detected_area_ratio : Q) : Q :=
  clip ((detected_area_ratio - (2 # 10)) / (75 # 100)) 0 1.

End Confidence.

(* ================================================================== *)
(** ** Segment.py: manual-check heuristics and crop warnings *)
(* ================================================================== *)

Module ManualCheck.

Import Confidence.
Open Scope Q_scope.

(** The entries of [manual_reasons].  The source formats each one as a
    string such as ["low_confidence(0.42)"]; the constructor carries the
    value that is formatted into it. *)
Inductive reason : Type :=
| low_confidence (c : Q)
| high_residual_mad (m : Q)
| high_rotation (r : Q)
| scale_change (p : Q)
| perspective_distortion (p : Q)
| mostly_blank_crop.

(** The entries of [transform_params] the heuristics read. *)
Record transform_params := mk_tparams {
  rotation_deg : Q;
  scale_x : Q;
  scale_y : Q
}.

(** What the heuristics read: [confidence], [residual_mad] ([None] when
    not computed), [transform_params] and
    [perspective_metrics['perspective_distortion_pct']]. *)
Record metrics := mk_metrics {
  confidence : Q;
  residual_mad : option Q;
  tparams : transform_params;
  perspective_distortion_pct : Q
}.

(** [max(abs(scale_x-1.0)*100.0, abs(scale_y-1.0)*100.0)] *)
Definition max_scale_pct (tp : transform_params) : Q :=
  Qmax (Qabs (scale_x tp - 1) * 100) (Qabs (scale_y tp - 1) * 100).

(** Segment.py 420-432 (and 706-717): each test appends one reason. *)
Definition manual_check_heuristics (m : metrics) : list reason :=
  let r0 := [] in
  let r1 := if Qltb (confidence m) CONFIDENCE_THRESHOLD
            then r0 ++ [low_confidence (confidence m)] else r0 in
  let r2 := match residual_mad m with
            | Some mad => if Qltb RESIDUAL_MAD_THRESHOLD mad
                          then r1 ++ [high_residual_mad mad] else r1
            | None => r1
            end in
  let rot := rotation_deg (tparams m) in
  let r3 := if Qltb ROTATION_THRESHOLD_DEG (Qabs rot)
            then r2 ++ [high_rotation rot] else r2 in
  let msp := max_scale_pct (tparams m) in
  let r4 := if Qltb SCALE_PERCENT_THRESHOLD msp
            then r3 ++ [scale_change msp] else r3 in
  let pd := perspective_distortion_pct m in
  let r5 := if Qltb PERSPECTIVE_DISTORTION_PCT pd
            then r4 ++ [perspective_distortion pd] else r4 in
  r5.

(** A grayscale image as its list of rows (the warped image converted by
    [cv2.cvtColor(..., COLOR_BGR2GRAY)], which is per pixel). *)
Definition image := list (list Z).

Definition img_width (img : image) : Z :=
  match img with [] => 0%Z | r :: _ => Z.of_nat (length r) end.

(** [img[y:y+h, x:x+w]] for [0 <= x], [0 <= y]. *)
Definition slice2d (img : image) (y h x w : Z) : image :=
  map (fun r => firstn (Z.to_nat w) (skipn (Z.to_nat x) r))
      (firstn (Z.to_nat h) (skipn (Z.to_nat y) img)).

(** A row of [label.csv]: the bounding box in template coordinates (the
    CSV holds whole pixel values, so [int(round(.))] is the identity). *)
Record bbox := mk_bbox {
  bbox_x : Z;
  bbox_y : Z;
  bbox_width : Z;
  bbox_height : Z
}.

(** [crop_bbox_from_template_coords] (Segment.py 248-260). *)
Definition crop_bbox_from_template_coords (warped : image) (b : bbox) (pad : Z)
    : option image :=
  let x := (bbox_x b - pad)%Z in
  let y := (bbox_y b - pad)%Z in
  let w := (bbox_width b + 2 * pad)%Z in
  let h := (bbox_height b + 2 * pad)%Z in
  let Hh := Z.of_nat (length warped) in
  let Ww := img_width warped in
  let x := Z.max 0 x in
  let y := Z.max 0 y in
  let w := if (Ww <? x + w)%Z then (Ww - x)%Z else w in
  let h := if (Hh <? y + h)%Z then (Hh - y)%Z else h in
  if ((w <=? 0) || (h <=? 0))%Z then None
  else Some (slice2d warped y h x w).

Definition pixels (img : image) : list Z := concat img.

(** [is_mostly_blank(img, white_thresh, pct)] (Segment.py 240-246). *)
Definition is_mostly_blank (img : option image) (white_thresh : Z) (pct : Q) : bool :=
  match img with
  | None => true
  | Some g =>
      let total := Z.of_nat (length (pixels g)) in
      let white_pixels :=
        Z.of_nat (length (filter (fun v => (white_thresh <=? v)%Z) (pixels g))) in
      Qle_bool pct (inject_Z white_pixels / inject_Z total)
  end.

(** [np.var] of the pixel values (population variance). *)
Definition variance (xs : list Z) : Q :=
  let n := inject_Z (Z.of_nat (length xs)) in
  let mean := fold_right (fun v acc => inject_Z v + acc) 0 xs / n in
  fold_right (fun v acc => (inject_Z v - mean) * (inject_Z v - mean) + acc) 0 xs / n.

Inductive warning : Type :=
| invalid_crop
| mostly_blank
| low_variance (v : Q).

(** The warnings of one crop (Segment.py 467-475). *)
Definition crop_warnings (crop : option image) : list warning :=
  match crop with
  | None => [invalid_crop]
  | Some c =>
      let w1 := if is_mostly_blank (Some c) 245 (98 # 100) then [mostly_blank] else [] in
      let var := variance (pixels c) in
      w1 ++ (if Qltb var 20 then [low_variance var] else [])
  end.

Definition is_mostly_blank_warning (w : warning) : bool :=
  match w with mostly_blank => true | _ => false end.

Definition is_mostly_blank_crop_reason (r : reason) : bool :=
  match r with mostly_blank_crop => true | _ => false end.

(** One iteration of the crop loop (Segment.py 462-481) on
    [(manual_reasons, manual_flag)]. *)
Definition crop_step (warped : image) (st : list reason * bool) (b : bbox)
    : list reason * bool :=
  let '(reasons, flag) := st in
  let warnings := crop_warnings (crop_bbox_from_template_coords warped b 8) in
  if (0 <? Z.of_nat (length warnings))%Z && existsb is_mostly_blank_warning warnings then
    if negb (existsb is_mostly_blank_crop_reason reasons)
    then (reasons ++ [mostly_blank_crop], true)
    else (reasons, flag)
  else (reasons, flag).

(** [(manual_check_needed, manual_check_reasons)] of [process_single_image]. *)
Definition process_single_image_manual (m : metrics) (warped : image) (df : list bbox)
    : bool * list reason :=
  let reasons := manual_check_heuristics m in
  let flag := (0 <? Z.of_nat (length reasons))%Z in
  let '(reasons, flag) := fold_left (crop_step warped) df (reasons, flag) in
  (flag, reasons).

(** [(manual_check_needed, manual_check_reasons)] of
    [process_single_image_with_alignment] (no crop loop there). *)
Definition process_single_image_with_alignment_manual (m : metrics) : bool * list reason :=
  let reasons := manual_check_heuristics m in
  ((0 <? Z.of_nat (length reasons))%Z, reasons).

End ManualCheck.

(* ================================================================== *)
(** ** Segment.py: choice of the alignment method *)
(* ================================================================== *)

Module Alignment.

Import Confidence.
Open Scope Q_scope.

(** The values [used_method] takes. *)
Inductive method : Type :=
| identity_size_match
| feature_homography
| doc_detect
| identity_after_failed_detection
| simple_resize_fallback.

(** A quadrilateral found by the contour (or Hough) search, with what the
    code then learns about it: [found_area_ratio], whether [safe_inverse]
    returned a matrix, whether [warp_image_with_H] returned an image, and
    the fraction of near-white pixels of that warp. *)
Record doc_candidate := mk_doc {
  dc_area_ratio : Q;
  dc_inverse_ok : bool;
  dc_warp_ok : bool;
  dc_blank_frac : Q
}.

(** A homography from [compute_homography_via_features], its [stats], and
    whether its inversion and the warp succeeded. *)
Record feature_candidate := mk_feat {
  fc_stats : stats;
  fc_inverse_ok : bool;
  fc_warp_ok : bool
}.

(** The alignment outcome: [used_method], [confidence], [doc_area_ratio] and
    whether [H_img_to_template] was set. *)
Record align_out := mk_align {
  used_method : method;
  align_confidence : Q;
  doc_area_ratio : Q;
  has_homography : bool
}.

(** The exceptions the functions raise. *)
Inductive error : Type :=
| ValueError_no_warp.

Inductive result (A : Type) : Type :=
| Ok (a : A)
| Err (e : error).
Arguments Ok {A} a.
Arguments Err {A} e.

(** [size_diff_ok] (Segment.py 285 and 534). *)
Definition size_diff_ok (w_img h_img : Z) : bool :=
  Qle_bool (inject_Z (Z.abs (w_img - TEMPLATE_W))) (SIZE_TOL_PCT * inject_Z TEMPLATE_W)
  && Qle_bool (inject_Z (Z.abs (h_img - TEMPLATE_H))) (SIZE_TOL_PCT * inject_Z TEMPLATE_H).

(** [if found and found_corners is not None and found_area_ratio >
    MIN_DOC_AREA_RATIO: ...] up to [if blank_frac <= 0.90:]: the
    doc_detect warp, when it is accepted. *)
Definition doc_detect_step (found : option doc_candidate) : option align_out :=
  match found with
  | None => None
  | Some c =>
      if Qltb MIN_DOC_AREA_RATIO (dc_area_ratio c) && dc_inverse_ok c && dc_warp_ok c
         && Qle_bool (dc_blank_frac c) (90 # 100)
      then Some (mk_align doc_detect
                  (compute_alignment_confidence_from_stats (mk_stats 0 0 (Fin 999))
                     true (dc_area_ratio c))
                  (dc_area_ratio c) true)
      else None
  end.

(** The last-resort fallback (Segment.py 373-384 and 659-670). *)
Definition fallback_step (sdo : bool) (warped : option align_out) : option align_out :=
  match warped with
  | Some o => Some o
  | None =>
      if sdo then Some (mk_align identity_after_failed_detection (5 # 10) 0 false)
      else Some (mk_align simple_resize_fallback 0 0 false)
  end.

Definition check_warped (warped : option align_out) : result align_out :=
  match warped with
  | Some o => Ok o
  | None => Err ValueError_no_warp
  end.

(** Alignment stage of [process_single_image] (Segment.py 284-387):
    [contour] is the first quadrilateral of the contour search, if any. *)
Definition process_single_image_align (w_img h_img : Z) (contour : option doc_candidate)
    : result align_out :=
  let sdo := size_diff_ok w_img h_img in
  let warped :=
    if sdo then Some (mk_align identity_size_match (95 # 100) 0 false)
    else fallback_step sdo (doc_detect_step contour) in
  check_warped warped.

(** The feature-homography attempt (Segment.py 545-562). *)
Definition feature_step (feat : option feature_candidate) : option align_out :=
  match feat with
  | None => None
  | Some f =>
      if fc_inverse_ok f && fc_warp_ok f
      then Some (mk_align feature_homography
                  (compute_alignment_confidence_from_stats (fc_stats f) false 0) 0 true)
      else None
  end.

(** Alignment stage of [process_single_image_with_alignment] (Segment.py
    533-673): [feat] is the feature homography, [contour] the first
    quadrilateral of the contour search and [hough] the min-area box of the
    Hough segments, tried only when the contour search found nothing. *)
Definition process_single_image_with_alignment_align (w_img h_img : Z)
    (feat : option feature_candidate) (contour hough : option doc_candidate)
    : result align_out :=
  let sdo := size_diff_ok w_img h_img in
  let warped :=
    match feature_step feat with
    | Some o => Some o
    | None =>
        if sdo then Some (mk_align identity_size_match (95 # 100) 0 false)
        else
          let found := match contour with Some c => Some c | None => hough end in
          fallback_step sdo (doc_detect_step found)
    end in
  check_warped warped.

(** "Detection produces a warp": the predicates the claims speak of. *)
Definition feature_warps (feat : option feature_candidate) : bool :=
  match feature_step feat with Some _ => true | None => false end.

Definition doc_warps (found : option doc_candidate) : bool :=
  match doc_detect_step found with Some _ => true | None => false end.

End Alignment.

(* ================================================================== *)
(** ** train.py: [align_page] and its chain of detectors *)
(* ================================================================== *)

Module TrainAlign.

Open Scope Z_scope.

Definition point := (Z * Z)%type.

(** What a detector returns: [None], or the [float32] array of shape
    (4, 2) built by [order_corners]. *)
Inductive pyval : Type :=
| PyNone
| PyArray (rows : list point).

Inductive exn : Type :=
| ValueError_truth_value_ambiguous
| RuntimeError_page_quad_not_found.

Inductive result (A : Type) : Type :=
| Ok (a : A)
| Raise (e : exn).
Arguments Ok {A} a.
Arguments Raise {A} e.

(** Python's [bool(v)]: [None] is false; a numpy array with more than one
    element raises [ValueError] ("The truth value of an array with more than
    one element is ambiguous"); a one-element array is its element's truth
    value and an empty one is false. *)
Definition truthy (v : pyval) : result bool :=
  match v with
  | PyNone => Ok false
  | PyArray rows =>
      let size := (2 * Z.of_nat (length rows))%Z in
      if 1 <? size then Raise ValueError_truth_value_ambiguous
      else Ok (negb (size =? 0))
  end.

(** [a or b]: [a] when it is truthy, [b] otherwise (and [b] is then
    returned as it is, without being tested). *)
Definition py_or (a : pyval) (b : unit -> pyval) : result pyval :=
  match truthy a with
  | Raise e => Raise e
  | Ok true => Ok a
  | Ok false => Ok (b tt)
  end.

Definition bind {A B} (m : result A) (f : A -> result B) : result B :=
  match m with Ok a => f a | Raise e => Raise e end.

Notation "x <- m ;; k" := (bind m (fun x => k)) (at level 61, m at next level, right associativity).

(** The part of [align_page] (train.py 178-185) that decides whether a quad
    is available: [quad = detect_quad_bright(pre) or detect_quad_lsd(pre) or
    detect_quad_minrect(pre)], i.e. [(bright or lsd) or minrect], then
    [if quad is None: raise RuntimeError].  The warp that follows is not
    modelled: on success the quad it receives is returned. *)
Definition align_page (bright lsd minrect : pyval) : result (list point) :=
  q1 <- py_or bright (fun _ => lsd) ;;
  q <- py_or q1 (fun _ => minrect) ;;
  match q with
  | PyNone => Raise RuntimeError_page_quad_not_found
  | PyArray rows => Ok rows
  end.

End TrainAlign.

(* ================================================================== *)
(** ** Corner canonicalisation: [order_points] / [order_corners] *)
(* ================================================================== *)

Module Corners.

Open Scope Z_scope.

Definition point := (Z * Z)%type.

(** [pts.sum(axis=1)] and [np.diff(pts, axis=1)] of one row [(x, y)]. *)
Definition psum (p : point) : Z := fst p + snd p.
Definition pdiff (p : point) : Z := snd p - fst p.

(** [pts[np.argmin(key)]]: the first point of least key (numpy returns the
    first index of the minimum).  [d] is returned on an empty array, which
    the callers never pass. *)
Fixpoint argmin_from (key : point -> Z) (best : point) (l : list point) : point :=
  match l with
  | [] => best
  | p :: l' => argmin_from key (if key p <? key best then p else best) l'
  end.

Definition pick_argmin (key : point -> Z) (d : point) (l : list point) : point :=
  match l with [] => d | p :: l' => argmin_from key p l' end.

(** [pts[np.argmax(key)]]: the first point of greatest key. *)
Definition pick_argmax (key : point -> Z) (d : point) (l : list point) : point :=
  pick_argmin (fun p => - key p) d l.

(** [order_points] (Segment.py 97-105): [rect[0] = pts[argmin(s)]],
    [rect[2] = pts[argmax(s)]], [rect[1] = pts[argmin(diff)]],
    [rect[3] = pts[argmax(diff)]]. *)
Definition order_points (pts : list point) : point * point * point * point :=
  let o := (0, 0) in
  let r0 := pick_argmin psum o pts in
  let r2 := pick_argmax psum o pts in
  let r1 := pick_argmin pdiff o pts in
  let r3 := pick_argmax pdiff o pts in
  (r0, r1, r2, r3).

(** [order_corners] (train.py 28-35): [[tl, tr, br, bl]]. *)
Definition order_corners (pts : list point) : point * point * point * point :=
  let o := (0, 0) in
  let tl := pick_argmin psum o pts in
  let br := pick_argmax psum o pts in
  let tr := pick_argmin pdiff o pts in
  let bl := pick_argmax pdiff o pts in
  (tl, tr, br, bl).

Definition point_eq_dec (p q : point) : {p = q} + {p <> q}.
Proof. decide equality; apply Z.eq_dec. Defined.

(** [x] is the only point of [l] (up to repetitions of [x] itself) whose key
    is least. *)
Definition unique_min (key : point -> Z) (l : list point) (x : point) : Prop :=
  In x l /\ forall y, In y l -> y <> x -> key x < key y.

Definition unique_max (key : point -> Z) (l : list point) (x : point) : Prop :=
  In x l /\ forall y, In y l -> y <> x -> key y < key x.

End Corners.

(* ================================================================== *)
(** ** model.py: [final_hybrid_crop_after_deskew] *)
(* ================================================================== *)

Module FinalCrop.

Open Scope Z_scope.

(** A sub-array [rgb[y0:y1, x0:x1]] of an [H x W] image, as the bounds
    Python's slicing ends up using. *)
Record region := mk_region {
  ry0 : Z; ry1 : Z; rx0 : Z; rx1 : Z
}.

(** Python's slice bounds [a[start:stop]] on a length [n] (step 1): a
    negative bound counts from the end, then both are clamped to [0, n]. *)
Definition norm_index (n i : Z) : Z :=
  if i <? 0 then Z.max 0 (i + n) else Z.min i n.

Definition slice (H W y0 y1 x0 x1 : Z) : region :=
  mk_region (norm_index H y0) (norm_index H y1) (norm_index W x0) (norm_index W x1).

Definition height (r : region) : Z := Z.max 0 (ry1 r - ry0 r).
Definition width (r : region) : Z := Z.max 0 (rx1 r - rx0 r).

(** [int(0.01*W)] and [int(0.99*W)] for a non-negative extent (they agree
    with the float computation for every extent up to 20000). *)
Definition lo_edge (n : Z) : Z := n / 100.
Definition hi_edge (n : Z) : Z := (99 * n) / 100.

(** [np.where(proj > th)[0]] with [th = max(10.0, 0.08 * np.max(proj))]. *)
Definition qmax_list (l : list Q) : Q :=
  match l with [] => 0%Q | x :: l' => fold_left Qmax l' x end.

Definition above_threshold (proj : list Q) : list Z :=
  let th := Qmax 10 ((8 # 100) * qmax_list proj) in
  map (fun p => Z.of_nat (fst p))
      (filter (fun p => Confidence.Qltb th (snd p)) (combine (seq 0 (length proj)) proj)).

Definition first_or (d : Z) (l : list Z) : Z := match l with [] => d | x :: _ => x end.
Definition last_or (d : Z) (l : list Z) : Z := last l d.

(** [final_hybrid_crop_after_deskew] (model.py 221-284).  [hor] and [ver]
    are the smoothed ink projections (lines 236-237) and [b2] the result of
    [box_from_mask(paper_mask_on_deskewed(rgb))] (lines 244-245), for an
    [H x W] image. *)
Definition final_hybrid_crop_after_deskew (H W : Z) (hor ver : list Q)
    (b2 : option (Z * Z * Z * Z)) (pad : Z) : region :=
  let full := slice H W 0 H 0 W in
  let rows := above_threshold hor in
  let cols := above_threshold ver in
  match rows, cols with
  | [], _ | _, [] =>
      match b2 with
      | None => full
      | Some (x2, y2, w2, h2) =>
          let x0 := Z.max (lo_edge W) (x2 - pad) in
          let y0 := Z.max (lo_edge H) (y2 - pad) in
          let x1 := Z.min (hi_edge W) (x2 + w2 + pad) in
          let y1 := Z.min (hi_edge H) (y2 + h2 + pad) in
          slice H W y0 y1 x0 x1
      end
  | _, _ =>
      let y0_i := first_or 0 rows in
      let y1_i := last_or 0 rows in
      let x0_i := first_or 0 cols in
      let x1_i := last_or 0 cols in
      match b2 with
      | None =>
          let x0 := Z.max (lo_edge W) (x0_i - pad) in
          let y0 := Z.max (lo_edge H) (y0_i - pad) in
          let x1 := Z.min (hi_edge W) (x1_i + pad) in
          let y1 := Z.min (hi_edge H) (y1_i + pad) in
          if (y1 <=? y0) || (x1 <=? x0) then full
          else slice H W y0 y1 x0 x1
      | Some (x2, y2, w2, h2) =>
          let x0 := Z.max (lo_edge W) (Z.max x0_i x2 - pad) in
          let y0 := Z.max (lo_edge H) (Z.max y0_i y2 - pad) in
          let x1 := Z.min (hi_edge W) (Z.min x1_i (x2 + w2) + pad) in
          let y1 := Z.min (hi_edge H) (Z.min y1_i (y2 + h2) + pad) in
          if (y1 <=? y0) || (x1 <=? x0) then
            let xa0 := Z.max (lo_edge W) (x0_i - pad) in
            let ya0 := Z.max (lo_edge H) (y0_i - pad) in
            let xa1 := Z.min (hi_edge W) (x1_i + pad) in
            let ya1 := Z.min (hi_edge H) (y1_i + pad) in
            let xb0 := Z.max (lo_edge W) (x2 - pad) in
            let yb0 := Z.max (lo_edge H) (y2 - pad) in
            let xb1 := Z.min (hi_edge W) (x2 + w2 + pad) in
            let yb1 := Z.min (hi_edge H) (y2 + h2 + pad) in
            let area_a := Z.max 0 (xa1 - xa0) * Z.max 0 (ya1 - ya0) in
            let area_b := Z.max 0 (xb1 - xb0) * Z.max 0 (yb1 - yb0) in
            if negb (area_b =? 0) && (area_b <? area_a)
            then slice H W yb0 yb1 xb0 xb1
            else slice H W ya0 ya1 xa0 xa1
          else slice H W y0 y1 x0 x1
      end
  end.

End FinalCrop.

(* ================================================================== *)
(** ** model.py: [split_rows] and [attach_answer_boxes] *)
(* ================================================================== *)

Module Rows.

Open Scope Z_scope.

Definition box := (Z * Z * Z * Z)%type.

Definition bx_x (b : box) : Z := let '(x, _, _, _) := b in x.
Definition bx_y (b : box) : Z := let '(_, y, _, _) := b in y.
Definition bx_w (b : box) : Z := let '(_, _, w, _) := b in w.
Definition bx_h (b : box) : Z := let '(_, _, _, h) := b in h.

(** [int(x)] on a float: truncation toward zero. *)
Definition py_int (q : Q) : Z := Z.quot (Qnum q) (Zpos (Qden q)).

(** State of the scan loop of [split_rows]: [in_seg], [y0], [segments]. *)
Record scan_state := mk_scan {
  in_seg : bool;
  seg_y0 : Z;
  segments : list box
}.

(** One iteration [y] of [for y in range(H)] (model.py 367-373), where
    [above] is [proj[y] > thresh]. *)
Definition scan_step (H W min_h : Z) (st : scan_state) (y : Z) (above : bool) : scan_state :=
  if above && negb (in_seg st) then mk_scan true y (segments st)
  else if (negb above || (y =? H - 1)) && in_seg st then
    let y0 := seg_y0 st in
    let y1 := y in
    if min_h <=? y1 - y0 then
      mk_scan false y0
        (segments st ++ [(0, Z.max 0 (y0 - 4), W, Z.min (H - 1) (y1 + 4) - Z.max 0 (y0 - 4))])
    else mk_scan false y0 (segments st)
  else st.

Fixpoint scan (H W min_h : Z) (st : scan_state) (y : Z) (ab : list bool) : scan_state :=
  match ab with
  | [] => st
  | a :: ab' => scan H W min_h (scan_step H W min_h st y a) (y + 1) ab'
  end.

(** The merge loop (model.py 374-379); [cur] plays [merged[-1]]. *)
Fixpoint merge_from (cur : box) (rest : list box) : list box :=
  match rest with
  | [] => [cur]
  | s :: rest' =>
      let '(px, py, pw, ph) := cur in
      if bx_y s <=? py + ph + 12
      then merge_from (px, py, pw, (bx_y s + bx_h s) - py) rest'
      else cur :: merge_from s rest'
  end.

Definition merge_segments (segs : list box) : list box :=
  match segs with [] => [] | s :: rest => merge_from s rest end.

(** The top cut-off (model.py 380-385). *)
Definition cut_row (top_cut : Z) (b : box) : option box :=
  let '(x, y, w, h) := b in
  let y2 := Z.max y top_cut in
  if (top_cut <? y + h) && (y2 - y <? h) then Some (x, y2, w, (y + h) - y2) else None.

Fixpoint cut_rows (top_cut : Z) (l : list box) : list box :=
  match l with
  | [] => []
  | b :: l' =>
      match cut_row top_cut b with
      | Some b' => b' :: cut_rows top_cut l'
      | None => cut_rows top_cut l'
      end
  end.

Definition mean (proj : list Z) : Q :=
  inject_Z (fold_right Z.add 0 proj) / inject_Z (Z.of_nat (length proj)).

(** [split_rows(gray, band, min_y_frac)] (model.py 355-386), from the row
    projection [proj = np.sum(255 - bw, axis=1)] of the masked ink image
    (lines 358-363) of width [W]; [H = len(proj)]. *)
Definition split_rows (proj : list Z) (W : Z) (min_y_frac : Q) : list box :=
  let H := Z.of_nat (length proj) in
  let thresh := (mean proj * (4 # 10))%Q in
  let above := map (fun p => Confidence.Qltb thresh (inject_Z p)) proj in
  let min_h := Z.max 40 (H / 40) in
  let st := scan H W min_h (mk_scan false 0 []) 0 above in
  let merged := merge_segments (segments st) in
  let top_cut := py_int (inject_Z H * min_y_frac)%Q in
  cut_rows top_cut merged.

(** [sorted(rows, key=lambda r: r[1])]: a stable insertion sort. *)
Fixpoint insert_by_y (b : box) (l : list box) : list box :=
  match l with
  | [] => [b]
  | c :: l' => if bx_y b <? bx_y c then b :: l else c :: insert_by_y b l'
  end.

Definition sort_by_y (l : list box) : list box :=
  fold_left (fun acc b => insert_by_y b acc) l [].

Inductive row_type : Type := mcq | text.

(** The dataclass [Row]; [row_id = n] stands for the id string ["q{n}"]. *)
Record row := mk_row {
  row_id : nat;
  row_bbox : box;
  answer_box_bbox : option box;
  typ : row_type;
  row_confidence : Q
}.

Section Attach.

(** The bounding rectangles of the external contours of the adaptive
    threshold of [gray[y_lo:y_hi, bx:bx+bw]] (model.py 396-398), as
    OpenCV returns them, for the bounds [y_lo] [y_hi]. *)
Variable contour_rects : Z -> Z -> list box.

(** The candidate selection of model.py 399-409; [min] keeps the first of
    equal keys. *)
Fixpoint min_cand (best : Q * box) (l : list (Q * box)) : Q * box :=
  match l with
  | [] => best
  | c :: l' => min_cand (if Confidence.Qltb (fst c) (fst best) then c else best) l'
  end.

Definition answer_box (band : box) (y h ry : Z) : option box :=
  let '(bx, by_, bw, bh) := band in
  let y_lo := Z.max by_ y in
  let keep (r : box) :=
    let '(X, Y, Wr, Hr) := r in
    let ar := (inject_Z Wr / inject_Z Hr)%Q in
    Qle_bool (75 # 100) ar && Qle_bool ar (125 # 100)
    && (12 <=? Wr) && (Wr <=? 200) && (12 <=? Hr) && (Hr <=? 200) in
  let key (r : box) : Q * box :=
    let '(X, Y, Wr, Hr) := r in
    let cy := (inject_Z Y + inject_Z Hr / 2)%Q in
    let global_cy := (inject_Z y_lo + cy)%Q in
    (Qabs (global_cy - inject_Z ry), r) in
  match map key (filter keep (contour_rects y_lo (Z.min (by_ + bh) (y + h)))) with
  | [] => None
  | c :: cs =>
      let '(X, Y, Wr, Hr) := snd (min_cand c cs) in
      Some (bx + X, y_lo + Y, Wr, Hr)
  end.

Fixpoint attach_from (band : box) (qid : nat) (rows : list box) : list row :=
  match rows with
  | [] => []
  | r :: rs =>
      let '(x, y, w, h) := r in
      let '(bx, by_, bw, bh) := band in
      let ry := y + h / 2 in
      let has := (by_ <=? ry) && (ry <=? by_ + bh) in
      let out :=
        if has then mk_row qid r (answer_box band y h ry) mcq (86 # 100)
        else mk_row qid r None text (72 # 100) in
      out :: attach_from band (S qid) rs
  end.

(** [attach_answer_boxes(rows, band, gray)] (model.py 388-414). *)
Definition attach_answer_boxes (rows : list box) (band : box) : list row :=
  attach_from band 1 (sort_by_y rows).

End Attach.

(** Row [a] lies strictly above row [b] and the two do not overlap. *)
Definition above_disjoint (a b : row) : Prop :=
  bx_y (row_bbox a) < bx_y (row_bbox b)
  /\ bx_y (row_bbox a) + bx_h (row_bbox a) <= bx_y (row_bbox b).

End Rows.

(* ================================================================== *)
(** ** Segment.py: [decompose_homography] and the perspective measure *)
(* ================================================================== *)

Module Homography.

Open Scope R_scope.

Record mat2 := mk2 { m00 : R; m01 : R; m10 : R; m11 : R }.

Record mat3 := mk3 {
  h00 : R; h01 : R; h02 : R;
  h10 : R; h11 : R; h12 : R;
  h20 : R; h21 : R; h22 : R
}.

Definition mul2 (A B : mat2) : mat2 :=
  mk2 (m00 A * m00 B + m01 A * m10 B) (m00 A * m01 B + m01 A * m11 B)
      (m10 A * m00 B + m11 A * m10 B) (m10 A * m01 B + m11 A * m11 B).

Definition tr2 (A : mat2) : mat2 := mk2 (m00 A) (m10 A) (m01 A) (m11 A).
Definition I2 : mat2 := mk2 1 0 0 1.
Definition diag2 (a b : R) : mat2 := mk2 a 0 0 b.
Definition det2 (A : mat2) : R := m00 A * m11 A - m01 A * m10 A.

(** [H / c] for a 3x3 matrix. *)
Definition scale3 (H : mat3) (c : R) : mat3 :=
  mk3 (h00 H / c) (h01 H / c) (h02 H / c)
      (h10 H / c) (h11 H / c) (h12 H / c)
      (h20 H / c) (h21 H / c) (h22 H / c).

(** Python's [math.atan2(y, x)] on reals (signed zeros aside). *)
Definition atan2 (y x : R) : R :=
  if Rlt_dec 0 x then atan (y / x)
  else if Rlt_dec x 0 then
    (if Rle_dec 0 y then atan (y / x) + PI else atan (y / x) - PI)
  else if Rlt_dec 0 y then PI / 2
  else if Rlt_dec y 0 then - (PI / 2)
  else 0.

(** [math.degrees] *)
Definition degrees (a : R) : R := a * 180 / PI.

(** An orthogonal 2x2 matrix. *)
Definition orthogonal (U : mat2) : Prop := mul2 (tr2 U) U = I2 /\ mul2 U (tr2 U) = I2.

(** What [np.linalg.svd(A)] returns for a (finite) 2x2 matrix [A]:
    [U], the singular values in non-increasing order, and [Vt], with
    [A = U @ diag(s) @ Vt] and [U], [Vt] orthogonal. *)
Definition svd_ok (A : mat2) (out : option (mat2 * R * R * mat2)) : Prop :=
  match out with
  | None => False
  | Some (U, s1, s2, Vt) =>
      orthogonal U /\ orthogonal Vt /\ s2 <= s1 /\ 0 <= s2
      /\ A = mul2 (mul2 U (diag2 s1 s2)) Vt
  end.

(** The dictionary returned by [decompose_homography]. *)
Record transform := mk_transform {
  rotation_deg : R; scale_x : R; scale_y : R; shear : R;
  tx : R; ty : R; p20 : R; p21 : R
}.

(** The normalisation of [decompose_homography] (Segment.py 162-166). *)
Definition normalize (H : mat3) : mat3 :=
  if Rlt_dec (Rabs (h22 H)) (1 / 1000000000000) then scale3 H (h22 H + 1 / 1000000000000)
  else scale3 H (h22 H).

Definition linear_part (H : mat3) : mat2 := mk2 (h00 H) (h01 H) (h10 H) (h11 H).

(** [decompose_homography] (Segment.py 153-201).  [svd_out] is what
    [np.linalg.svd(A)] returned for the normalised linear part [A], or
    [None] when it raised (the [except] branch). *)
Definition decompose_homography (H0 : mat3) (svd_out : option (mat2 * R * R * mat2)) : transform :=
  let H := normalize H0 in
  let A := linear_part H in
  let '(Rm, sc_x, sc_y) :=
    match svd_out with
    | Some (U, s1, s2, Vt) =>
        let R0 := mul2 U Vt in
        if Rlt_dec (det2 R0) 0 then
          (mul2 U (mk2 (m00 Vt) (m01 Vt) (- m10 Vt) (- m11 Vt)), s1, s2)
        else (R0, s1, s2)
    | None =>
        (I2, sqrt (m00 A * m00 A + m10 A * m10 A), sqrt (m01 A * m01 A + m11 A * m11 A))
    end in
  let angle_rad := atan2 (m10 Rm) (m00 Rm) in
  let angle_deg := degrees angle_rad in
  let S := mul2 (tr2 Rm) A in
  mk_transform angle_deg sc_x sc_y (m01 S) (h02 H) (h12 H) (h20 H) (h21 H).

(** [cv2.perspectiveTransform] of one point: the projective division, with
    OpenCV's guard [|w| > FLT_EPSILON] (else the point maps to (0, 0)). *)
Definition FLT_EPSILON : R := / 8388608.

Definition persp_point (H : mat3) (x y : R) : R * R :=
  let X := h00 H * x + h01 H * y + h02 H in
  let Y := h10 H * x + h11 H * y + h12 H in
  let w := h20 H * x + h21 H * y + h22 H in
  if Rlt_dec FLT_EPSILON (Rabs w) then (X / w, Y / w) else (0, 0).

Definition dist (p q : R * R) : R :=
  sqrt ((fst q - fst p) * (fst q - fst p) + (snd q - snd p) * (snd q - snd p)).

(** [measure_perspective_from_template_to_image(H, template_w, template_h)]
    (Segment.py 203-226): the side lengths of the mapped corner quad and
    [perspective_distortion_pct]. *)
Definition side_lengths (H : mat3) (tw th : R) : R * R * R * R :=
  let c0 := persp_point H 0 0 in
  let c1 := persp_point H (tw - 1) 0 in
  let c2 := persp_point H (tw - 1) (th - 1) in
  let c3 := persp_point H 0 (th - 1) in
  (dist c0 c1, dist c1 c2, dist c2 c3, dist c3 c0).

Definition measure_perspective_from_template_to_image (H : mat3) (tw th : R) : R :=
  let '(l0, l1, l2, l3) := side_lengths H tw th in
  let mn := Rmin (Rmin (Rmin l0 l1) l2) l3 in
  let mx := Rmax (Rmax (Rmax l0 l1) l2) l3 in
  if Rle_dec mn (1 / 1000000) then 0 else (mx / mn - 1) * 100.

(** The reported [perspective_metrics['perspective_distortion_pct']] of
    [process_single_image] / [_with_alignment] (Segment.py 405-418). *)
Definition reported_perspective_pct (H_img_to_template H_template_to_img : option mat3) : R :=
  match H_img_to_template with
  | Some _ =>
      match H_template_to_img with
      | Some Ht2i => measure_perspective_from_template_to_image Ht2i 1700 2200
      | None => 0
      end
  | None => 0
  end.

(** A homography whose bottom row is [0, 0, 1]. *)
Definition affine (H : mat3) : Prop := h20 H = 0 /\ h21 H = 0 /\ h22 H = 1.

(** The rotation by [theta] degrees. *)
Definition rot (theta : R) : mat2 :=
  let t := theta * PI / 180 in mk2 (cos t) (- sin t) (sin t) (cos t).

(** The affine homography with linear part [rot theta * diag(sx, sy)]. *)
Definition similarity_homography (theta sx sy tx0 ty0 : R) : mat3 :=
  let A := mul2 (rot theta) (diag2 sx sy) in
  mk3 (m00 A) (m01 A) tx0 (m10 A) (m11 A) ty0 0 0 1.

End Homography.

(* ================================================================== *)
(** ** model.py: [find_answer_band], [ensure_portrait], [canonicalize]
       and the deduplication of candidate quads *)
(* ================================================================== *)

Module AnswerBand.

Import Rows.
Open Scope Z_scope.

(** What [find_answer_band] reads of a contour [c]: its bounding rectangle
    [cv2.boundingRect(c)] and the vertex count of
    [cv2.approxPolyDP(c, 0.05*cv2.arcLength(c, True), True)]. *)
Record contour := mk_contour {
  rect : box;
  approx_len : nat
}.

(** The filter of model.py 302-307 for an [H x W] image.  [w*h > W*H*0.02]
    is [50*w*h > W*H] (the float product agrees with it for every image of
    up to 2*10^7 pixels); [0.75 <= w/h <= 1.25] compares with thresholds
    that are exact binary fractions, so the rational test is exact. *)
Definition is_square (W H : Z) (c : contour) : bool :=
  let '(x, y, w, h) := rect c in
  if (w * h <? 150) || (W * H <? 50 * (w * h)) then false
  else
    let ar := (inject_Z w / inject_Z h)%Q in
    Qle_bool (75 # 100) ar && Qle_bool ar (125 # 100) && (approx_len c =? 4)%nat.

(** [find_answer_band(gray)] (model.py 293-313) for an [H x W] image whose
    external contours are [cnts].  [int(W*0.72)] is [72*W // 100] for every
    width up to 40000, and likewise for the other three fractions. *)
Definition find_answer_band (W H : Z) (cnts : list contour) : box :=
  let squares := map rect (filter (is_square W H) cnts) in
  match squares with
  | [] => ((72 * W) / 100, (15 * H) / 100, (26 * W) / 100, (73 * H) / 100)
  | s :: ss =>
      let right := Z.min (W - 1) (fold_left Z.max (map bx_x ss) (bx_x s) + 40) in
      let left := Z.max 0 (fold_left Z.min (map bx_x ss) (bx_x s) - 40) in
      let top := Z.max 0 (fold_left Z.min (map bx_y ss) (bx_y s) - 40) in
      let bot := Z.min (H - 1)
                   (fold_left Z.max (map (fun b => bx_y b + bx_h b) ss) (bx_y s + bx_h s) + 40) in
      (left, top, right - left, bot - top)
  end.

End AnswerBand.

Module Orientation.

Open Scope Z_scope.

Section Img.

Context {A : Type} (d : A).

(** An image as its list of rows of pixels (of any type [A], e.g. an RGB
    triple); [d] is only a default for out-of-range reads. *)
Definition height (img : list (list A)) : Z := Z.of_nat (length img).
Definition width (img : list (list A)) : Z :=
  match img with [] => 0 | r :: _ => Z.of_nat (length r) end.

(** [cv2.rotate(img, cv2.ROTATE_90_COUNTERCLOCKWISE)]:
    [dst[i][j] = src[j][W-1-i]]. *)
Definition rotate_90_ccw (img : list (list A)) : list (list A) :=
  map (fun j => map (fun r => nth j r d) img) (rev (seq 0 (Z.to_nat (width img)))).

(** [cv2.rotate(img, cv2.ROTATE_180)]: [dst[i][j] = src[H-1-i][W-1-j]]. *)
Definition rotate_180 (img : list (list A)) : list (list A) :=
  rev (map (@rev A) img).

(** [ensure_portrait(rgb)] (model.py 287-291). *)
Definition ensure_portrait (img : list (list A)) : list (list A) :=
  if height img <? width img then rotate_90_ccw img else img.

(** [canonicalize(rgb)] (model.py 315-326).  [band_of] is
    [find_answer_band(cv2.cvtColor(rgb, cv2.COLOR_RGB2GRAY))], the band of
    the current image; [cx < W*0.5] with [cx = bx + bw/2.0] is
    [2*bx + bw < W]. *)
Variable band_of : list (list A) -> Z * Z * Z * Z.

Fixpoint canonicalize_loop (n : nat) (img : list (list A)) : list (list A) :=
  match n with
  | O => img
  | S n' =>
      let '(bx, by_, bw, bh) := band_of img in
      if height img <? width img then canonicalize_loop n' (rotate_90_ccw img)
      else if 2 * bx + bw <? width img then canonicalize_loop n' (rotate_180 img)
      else img
  end.

Definition canonicalize (img : list (list A)) : list (list A) := canonicalize_loop 4 img.

End Img.

(** Every row has [width img] pixels, as in a numpy array. *)
Definition rectangular {A} (img : list (list A)) : Prop :=
  Forall (fun r => Z.of_nat (length r) = width img) img.

End Orientation.

Module QuadDedup.

Open Scope Z_scope.

Section Dedup.

(** A candidate quad and its bounding rectangle
    [cv2.boundingRect(q.astype(np.int32))]. *)
Context {quad : Type}.
Variable bounding_rect : quad -> Z * Z * Z * Z.

(** [(x//20, y//20, w//20, h//20)]: Python's [//] is floor division. *)
Definition dedup_key (q : quad) : Z * Z * Z * Z :=
  let '(x, y, w, h) := bounding_rect q in (x / 20, y / 20, w / 20, h / 20).

Definition key_eqb (a b : Z * Z * Z * Z) : bool :=
  let '(a1, a2, a3, a4) := a in
  let '(b1, b2, b3, b4) := b in
  (a1 =? b1) && (a2 =? b2) && (a3 =? b3) && (a4 =? b4).

(** The loop of model.py 138-143 from the set [seen]. *)
Fixpoint dedup_from (seen : list (Z * Z * Z * Z)) (qs : list quad) : list quad :=
  match qs with
  | [] => []
  | q :: qs' =>
      let key := dedup_key q in
      if existsb (key_eqb key) seen then dedup_from seen qs'
      else q :: dedup_from (key :: seen) qs'
  end.

(** The deduplication ending [candidate_quads_from_mask_and_edges]. *)
Definition dedup_quads (quads : list quad) : list quad := dedup_from [] quads.

End Dedup.

(** [l] is [l'] with some elements left out, the order kept. *)
Inductive subseq {A : Type} : list A -> list A -> Prop :=
| subseq_nil : subseq [] []
| subseq_keep a l l' : subseq l l' -> subseq (a :: l) (a :: l')
| subseq_skip a l l' : subseq l l' -> subseq l (a :: l').

End QuadDedup.

Module BestWarp.

Import Confidence.
Open Scope Q_scope.

(** The outcome of [best_warp]: the [no_quad] branch, the refined quad of
    the chosen candidate, or the [TypeError] raised by
    [wr, wg, q_used = best] when no candidate beat [best_val = -1e9]. *)
Inductive outcome (quad : Type) : Type :=
| NoQuad
| Chosen (q : quad)
| Unpack_error.

Arguments NoQuad {quad}.
Arguments Chosen {quad} q.
Arguments Unpack_error {quad}.

Section Select.

Context {quad : Type}.

(** [s = rscore * cov_penalty] of a candidate (model.py 172-176). *)
Variable layout_score : quad -> Q.
(** [refine_corners_subpix(gray, q)] (model.py 183). *)
Variable refine : quad -> quad.
(** [focus_sharpness] of the gray warp by the refined quad (184-185). *)
Variable sharpness : quad -> Q.

Definition total (q : quad) : Q := sharpness q * (1 + (3 # 10) * layout_score q).

(** [scored.sort(key=lambda z: z[0], reverse=True)]: a stable sort on
    decreasing score, candidates of equal score keeping their order. *)
Fixpoint insert_desc (x : quad) (l : list quad) : list quad :=
  match l with
  | [] => [x]
  | y :: l' => if Qltb (layout_score y) (layout_score x) then x :: l else y :: insert_desc x l'
  end.

Definition sort_desc (l : list quad) : list quad :=
  fold_left (fun acc x => insert_desc x acc) l [].

(** One iteration of the selection loop (model.py 182-190). *)
Definition select_step (st : Q * option quad) (q : quad) : Q * option quad :=
  let '(best_val, best) := st in
  if Qltb best_val (total q) then (total q, Some q) else st.

(** [best_warp(rgb, gray)] (model.py 164-196) on the candidate list. *)
Definition best_warp (candidates : list quad) : outcome quad :=
  match candidates with
  | [] => NoQuad
  | _ =>
      let top := firstn 4 (sort_desc candidates) in
      match snd (fold_left select_step top (-(1000000000 # 1), None)) with
      | None => Unpack_error
      | Some q => Chosen (refine q)
      end
  end.

End Select.

End BestWarp.

(* ================================================================== *)
(** ** train.py: [intersect] and the line helpers of [detect_quad_lsd] *)
(* ================================================================== *)

Module TrainGeom.

Open Scope R_scope.

(** [intersect(p1, p2, p3, p4)] (train.py 37-43): the intersection of the
    line through [p1], [p2] with the line through [p3], [p4], in exact
    arithmetic (the result is then stored as float32). *)
Definition intersect (p1 p2 p3 p4 : R * R) : option (R * R) :=
  let '(x1, y1) := p1 in
  let '(x2, y2) := p2 in
  let '(x3, y3) := p3 in
  let '(x4, y4) := p4 in
  let den := (x1 - x2) * (y3 - y4) - (y1 - y2) * (x3 - x4) in
  if Rlt_dec (Rabs den) (/ 1000000) then None
  else
    let px := ((x1 * y2 - y1 * x2) * (x3 - x4) - (x1 - x2) * (x3 * y4 - y3 * x4)) / den in
    let py := ((x1 * y2 - y1 * x2) * (y3 - y4) - (y1 - y2) * (x3 * y4 - y3 * x4)) / den in
    Some (px, py).

(** The denominator tested by [intersect]. *)
Definition intersect_den (p1 p2 p3 p4 : R * R) : R :=
  let '(x1, y1) := p1 in
  let '(x2, y2) := p2 in
  let '(x3, y3) := p3 in
  let '(x4, y4) := p4 in
  (x1 - x2) * (y3 - y4) - (y1 - y2) * (x3 - x4).

(** [line_y(l, x)] and [line_x(l, y)] (train.py 135-144), on a line
    [l = (x1, y1, x2, y2)]. *)
Definition line_y (l : R * R * R * R) (x : R) : option R :=
  let '(x1, y1, x2, y2) := l in
  if Rlt_dec (Rabs (x2 - x1)) (/ 1000000) then None
  else
    let m := (y2 - y1) / (x2 - x1) in
    let b := y1 - m * x1 in
    Some (m * x + b).

Definition line_x (l : R * R * R * R) (y : R) : option R :=
  let '(x1, y1, x2, y2) := l in
  if Rlt_dec (Rabs (y2 - y1)) (/ 1000000) then None
  else
    let m := (x2 - x1) / (y2 - y1) in
    let b := x1 - m * y1 in
    Some (m * y + b).

End TrainGeom.

(* ================================================================== *)
(** ** Segment.py: [json_serialize] *)
(* ================================================================== *)

Module JsonSerialize.

Local Set Warnings "-register-all".








End JsonSerialize.

(* ================================================================== *)
(** ** Segment.py: [crop_questions_from_images] *)
(* ================================================================== *)

Module CropQuestions.

Import ManualCheck.
Open Scope Z_scope.

(** Decimal digits of a natural number, as Python's [f"{n}"]. *)
Fixpoint digits_aux (fuel n : nat) (acc : String.string) : String.string :=
  match fuel with
  | O => acc
  | S f =>
      let acc' := String.String (Ascii.ascii_of_nat (48 + Nat.modulo n 10)) acc in
      if Nat.ltb n 10 then acc' else digits_aux f (Nat.div n 10) acc'
  end.

Definition string_of_nat (n : nat) : String.string := digits_aux (S n) n String.EmptyString.

(** [f"{img_idx + 1}.jpg"]. *)
Definition page_name (img_idx : nat) : String.string :=
  String.append (string_of_nat (S img_idx))
    (String.String (Ascii.ascii_of_nat 46)
      (String.String (Ascii.ascii_of_nat 106)
        (String.String (Ascii.ascii_of_nat 112)
          (String.String (Ascii.ascii_of_nat 103) String.EmptyString)))).

(** A row of [label.csv] with whole-pixel coordinates. *)
Record label := mk_label {
  label_name : String.string;
  label_bbox : bbox;
  image_name : String.string
}.

(** An entry of [cropped_questions]; the base64 image, file name and the
    echoed bounding box are left out. *)
Record cropped := mk_cropped {
  question_name : String.string;
  page_number : nat;
  crop_warns : list warning
}.

(** The summary fields [total_questions_cropped], [pages_processed],
    [questions_per_page] (the count of page [i+1] as the pair
    [(i+1, count)]) and [all_questions]. *)
Record summary := mk_summary {
  total_questions_cropped : nat;
  pages_processed : nat;
  questions_per_page : list (nat * nat);
  all_questions : list String.string
}.

(** The questions of one page (model of Segment.py 764-812): the rows whose
    [image_name] is the page's name, cropped from the aligned page; a
    [None] crop is skipped.  The warnings of a crop are those of
    [process_single_image] (Segment.py 784-788). *)
Definition page_questions (warped : image) (img_idx : nat) (labels : list label)
    : list cropped :=
  flat_map (fun lb =>
    match crop_bbox_from_template_coords warped (label_bbox lb) 8 with
    | None => []
    | Some c => [mk_cropped (label_name lb) (S img_idx) (crop_warnings (Some c))]
    end)
    (filter (fun lb => String.eqb (image_name lb) (page_name img_idx)) labels).

Section Pipeline.

(** [process_single_image_with_alignment(image, filename, img_idx)]: the
    aligned page (its metadata is only stored). *)
Context {img fname : Type}.
Variable align : img -> fname -> nat -> image.

Fixpoint pages_from (idx : nat) (pages : list (img * fname)) (labels : list label)
    : list cropped :=
  match pages with
  | [] => []
  | (im, fn) :: ps =>
      page_questions (align im fn idx) idx labels ++ pages_from (S idx) ps labels
  end.

(** [crop_questions_from_images(image_list, filenames)] (Segment.py
    735-831) with the rows [labels] of [label.csv]. *)
Definition crop_questions_from_images (image_list : list img) (filenames : list fname)
    (labels : list label) : list cropped * summary :=
  let cq := pages_from 0 (combine image_list filenames) labels in
  (cq, mk_summary (length cq) (length image_list)
         (map (fun i => (S i, length (filter (fun q => Nat.eqb (page_number q) (S i)) cq)))
              (seq 0 (length image_list)))
         (map question_name cq)).

End Pipeline.

End CropQuestions.

(* ================================================================== *)
(** * Properties *)
(* ================================================================== *)

Module ConfidenceFacts.

Import Confidence.
Open Scope Q_scope.

Lemma Qltb_iff (x y : Q) : Qltb x y = true <-> x < y.
Proof.
  unfold Qltb. rewrite negb_true_iff. split.
  - intros H. apply Qnot_le_lt. intros Hle.
    apply Qle_bool_iff in Hle. congruence.
  - intros H. destruct (Qle_bool y x) eqn:E; [|reflexivity].
    apply Qle_bool_iff in E. exfalso. apply (Qlt_not_le x y); assumption.
Qed.

Lemma clip_01_bounds (a : Q) : 0 <= clip a 0 1 <= 1.
Proof.
  unfold clip. split.
  - apply Q.min_glb; [apply Q.le_max_r | discriminate].
  - apply Q.le_min_r.
Qed.

Lemma clip_mono (a b lo hi : Q) : a <= b -> clip a lo hi <= clip b lo hi.
Proof.
  intros H. unfold clip. apply Q.min_le_compat_r, Q.max_le_compat_r, H.
Qed.

Lemma inlier_ratio_mono (m i1 i2 : Z) :
  (0 < m)%Z -> (i1 <= i2)%Z -> inject_Z i1 / inject_Z m <= inject_Z i2 / inject_Z m.
Proof.
  intros Hm Hi. unfold Qdiv. apply Qmult_le_compat_r.
  - rewrite <- Zle_Qle. exact Hi.
  - apply Qinv_le_0_compat. change 0 with (inject_Z 0). rewrite <- Zle_Qle. lia.
Qed.

(** C2.  The feature-match confidence is
    [clip(0.7 * inliers/matches + 0.3 * clip(1 - err/50, 0, 1), 0, 1)] (and
    0 when [matches <= 0]); the fallback confidence is
    [clip((ratio - 0.2)/0.75, 0, 1)]; for fixed [matches > 0] and
    reprojection error the first is non-decreasing in the number of
    inliers, the second is non-decreasing in the area ratio, and both lie
    in [0, 1]. *)
Theorem compute_alignment_confidence_from_stats_spec :
  (forall st r, (matches st <= 0)%Z ->
     compute_alignment_confidence_from_stats st false r = 0)
  /\ (forall st r e, median_reproj_err st = Fin e ->
     compute_alignment_confidence_from_stats st false r
     = feature_confidence_spec (inliers st) (matches st) e)
  /\ (forall st r, compute_alignment_confidence_from_stats st true r = area_confidence_spec r)
  /\ (forall m i1 i2 e r, (0 < m)%Z -> (i1 <= i2)%Z ->
     compute_alignment_confidence_from_stats (mk_stats m i1 e) false r
     <= compute_alignment_confidence_from_stats (mk_stats m i2 e) false r)
  /\ (forall st r1 r2, r1 <= r2 ->
     compute_alignment_confidence_from_stats st true r1
     <= compute_alignment_confidence_from_stats st true r2)
  /\ (forall st fb r,
     0 <= compute_alignment_confidence_from_stats st fb r <= 1).
Proof.
  split; [|split; [|split; [|split; [|split]]]].
  - intros st r Hm. unfold compute_alignment_confidence_from_stats.
    apply Z.leb_le in Hm. rewrite Hm. reflexivity.
  - intros st r e He. unfold compute_alignment_confidence_from_stats, feature_confidence_spec.
    rewrite He. reflexivity.
  - intros st r. reflexivity.
  - intros m i1 i2 e r Hm Hi. unfold compute_alignment_confidence_from_stats. simpl.
    destruct (Z.leb_spec m 0) as [H0|H0]; [lia|].
    apply clip_mono. apply Qplus_le_compat; [|apply Qle_refl].
    apply (proj2 (Qmult_le_l _ _ (7 # 10) ltac:(reflexivity))).
    apply inlier_ratio_mono; assumption.
  - intros st r1 r2 Hr. unfold compute_alignment_confidence_from_stats.
    apply clip_mono. unfold Qdiv. apply Qmult_le_compat_r; [|discriminate].
    apply Qplus_le_compat; [exact Hr | apply Qle_refl].
  - intros st fb r. unfold compute_alignment_confidence_from_stats.
    destruct fb; [apply clip_01_bounds|].
    destruct (matches st <=? 0)%Z; [split; discriminate|].
    apply clip_01_bounds.
Qed.

End ConfidenceFacts.

Module ManualCheckFacts.

Import Confidence ManualCheck ConfidenceFacts.
Open Scope Q_scope.

Lemma heuristics_no_blank_reason (m : metrics) :
  existsb is_mostly_blank_crop_reason (manual_check_heuristics m) = false.
Proof.
  unfold manual_check_heuristics.
  destruct (Qltb (confidence m) CONFIDENCE_THRESHOLD), (residual_mad m) as [mad|];
    [destruct (Qltb RESIDUAL_MAD_THRESHOLD mad)| |destruct (Qltb RESIDUAL_MAD_THRESHOLD mad)|];
    destruct (Qltb ROTATION_THRESHOLD_DEG _), (Qltb SCALE_PERCENT_THRESHOLD _),
      (Qltb PERSPECTIVE_DISTORTION_PCT _); reflexivity.
Qed.

(** The five tests of the heuristics as booleans. *)
Lemma heuristics_length (m : metrics) :
  length (manual_check_heuristics m)
  = (Nat.b2n (Qltb (confidence m) CONFIDENCE_THRESHOLD)
     + Nat.b2n (match residual_mad m with
                | Some mad => Qltb RESIDUAL_MAD_THRESHOLD mad | None => false end)
     + Nat.b2n (Qltb ROTATION_THRESHOLD_DEG (Qabs (rotation_deg (tparams m))))
     + Nat.b2n (Qltb SCALE_PERCENT_THRESHOLD (max_scale_pct (tparams m)))
     + Nat.b2n (Qltb PERSPECTIVE_DISTORTION_PCT (perspective_distortion_pct m)))%nat.
Proof.
  unfold manual_check_heuristics.
  destruct (Qltb (confidence m) CONFIDENCE_THRESHOLD), (residual_mad m) as [mad|];
    [destruct (Qltb RESIDUAL_MAD_THRESHOLD mad)| |destruct (Qltb RESIDUAL_MAD_THRESHOLD mad)|];
    destruct (Qltb ROTATION_THRESHOLD_DEG _), (Qltb SCALE_PERCENT_THRESHOLD _),
      (Qltb PERSPECTIVE_DISTORTION_PCT _); simpl; repeat rewrite length_app; simpl; lia.
Qed.

Lemma crop_warnings_blank (c : option image) :
  existsb is_mostly_blank_warning (crop_warnings c)
  = match c with None => false | Some g => is_mostly_blank (Some g) 245 (98 # 100) end.
Proof.
  destruct c as [g|]; [|reflexivity]. unfold crop_warnings.
  destruct (is_mostly_blank (Some g) 245 (98 # 100)), (Qltb (variance (pixels g)) 20);
    reflexivity.
Qed.

Lemma crop_step_blank (warped : image) (b : bbox) (st : list reason * bool) :
  crop_step warped st b
  = let '(reasons, flag) := st in
    if match crop_bbox_from_template_coords warped b 8 with
       | None => false | Some g => is_mostly_blank (Some g) 245 (98 # 100) end
    then (if existsb is_mostly_blank_crop_reason reasons then (reasons, flag)
          else (reasons ++ [mostly_blank_crop], true))
    else (reasons, flag).
Proof.
  destruct st as [reasons flag]. unfold crop_step.
  rewrite <- crop_warnings_blank.
  destruct (existsb is_mostly_blank_warning _) eqn:E.
  - assert (Hlen : (0 <? Z.of_nat (length (crop_warnings
                     (crop_bbox_from_template_coords warped b 8))))%Z = true).
    { destruct (crop_warnings _); [discriminate|]. simpl. apply Z.ltb_lt. lia. }
    rewrite Hlen. simpl. destruct (existsb is_mostly_blank_crop_reason reasons); reflexivity.
  - rewrite andb_false_r. reflexivity.
Qed.

Lemma existsb_app_blank (reasons : list reason) :
  existsb is_mostly_blank_crop_reason (reasons ++ [mostly_blank_crop]) = true.
Proof. rewrite existsb_app. simpl. apply orb_true_r. Qed.

Lemma crop_loop_done (warped : image) (df : list bbox) (reasons : list reason) (flag : bool) :
  existsb is_mostly_blank_crop_reason reasons = true ->
  fold_left (crop_step warped) df (reasons, flag) = (reasons, flag).
Proof.
  intros Hr. induction df as [|b df IH]; [reflexivity|].
  cbn [fold_left]. rewrite crop_step_blank, Hr.
  destruct (match crop_bbox_from_template_coords warped b 8 with
            | None => false | Some g => is_mostly_blank (Some g) 245 (98 # 100) end);
    exact IH.
Qed.

(** The crop loop adds [mostly_blank_crop] once, and sets the flag, exactly
    when some crop is mostly blank. *)
Lemma crop_loop (warped : image) (df : list bbox) (reasons : list reason) (flag : bool) :
  existsb is_mostly_blank_crop_reason reasons = false ->
  fold_left (crop_step warped) df (reasons, flag)
  = if existsb (fun b => match crop_bbox_from_template_coords warped b 8 with
                         | None => false
                         | Some g => is_mostly_blank (Some g) 245 (98 # 100) end) df
    then (reasons ++ [mostly_blank_crop], true) else (reasons, flag).
Proof.
  intros Hnr. induction df as [|b df IH]; [reflexivity|].
  cbn [fold_left existsb]. rewrite crop_step_blank, Hnr.
  destruct (match crop_bbox_from_template_coords warped b 8 with
            | None => false | Some g => is_mostly_blank (Some g) 245 (98 # 100) end).
  - apply crop_loop_done, existsb_app_blank.
  - exact IH.
Qed.

Lemma count5_pos (a b c d e : bool) :
  (0 < Z.of_nat (Nat.b2n a + Nat.b2n b + Nat.b2n c + Nat.b2n d + Nat.b2n e))%Z <->
  (a = true \/ b = true \/ c = true \/ d = true \/ e = true).
Proof.
  destruct a, b, c, d, e; simpl; split; intros H;
    try lia; try tauto; destruct H as [H|[H|[H|[H|H]]]]; discriminate.
Qed.

Lemma mad_test_iff (mad_opt : option Q) :
  (match mad_opt with Some mad => Qltb RESIDUAL_MAD_THRESHOLD mad | None => false end = true)
  <-> (exists mad, mad_opt = Some mad /\ RESIDUAL_MAD_THRESHOLD < mad).
Proof.
  destruct mad_opt as [mad|]; split.
  - intros H. exists mad. split; [reflexivity|]. apply Qltb_iff, H.
  - intros [mad' [Hs H]]. injection Hs as <-. apply Qltb_iff, H.
  - discriminate.
  - intros [mad' [Hs _]]. discriminate.
Qed.

Lemma length_pos_iff (m : metrics) :
  (0 <? Z.of_nat (length (manual_check_heuristics m)))%Z = true <->
  (confidence m < CONFIDENCE_THRESHOLD
   \/ (exists mad, residual_mad m = Some mad /\ RESIDUAL_MAD_THRESHOLD < mad)
   \/ ROTATION_THRESHOLD_DEG < Qabs (rotation_deg (tparams m))
   \/ SCALE_PERCENT_THRESHOLD < max_scale_pct (tparams m)
   \/ PERSPECTIVE_DISTORTION_PCT < perspective_distortion_pct m).
Proof.
  rewrite Z.ltb_lt, heuristics_length, count5_pos.
  rewrite mad_test_iff, !Qltb_iff. reflexivity.
Qed.

Lemma blank_crop_exists (warped : image) (df : list bbox) :
  existsb (fun b => match crop_bbox_from_template_coords warped b 8 with
                    | None => false
                    | Some g => is_mostly_blank (Some g) 245 (98 # 100) end) df = true
  <-> (exists b c, In b df /\ crop_bbox_from_template_coords warped b 8 = Some c
                   /\ is_mostly_blank (Some c) 245 (98 # 100) = true).
Proof.
  rewrite existsb_exists. split.
  - intros [b [Hin Hb]]. destruct (crop_bbox_from_template_coords warped b 8) as [c|] eqn:E;
      [|discriminate].
    exists b, c. auto.
  - intros [b [c [Hin [Hc Hb]]]]. exists b. rewrite Hc. auto.
Qed.

(** C1.  [manual_check_needed] is true exactly when one of the tests holds:
    confidence below 0.60, a computed residual MAD above 30, |rotation|
    above 10 degrees, the larger scale change above 10 %, perspective
    distortion above 8 %, or (in [process_single_image]) a mostly blank crop
    (at least 98 % of its pixels >= 245); [manual_check_reasons] holds one
    entry per test that holds; a mostly blank crop alone sets the flag. *)
Theorem manual_check_needed_iff (m : metrics) (warped : image) (df : list bbox) :
  (let '(flag, reasons) := process_single_image_manual m warped df in
   (flag = true <->
      (confidence m < CONFIDENCE_THRESHOLD
       \/ (exists mad, residual_mad m = Some mad /\ RESIDUAL_MAD_THRESHOLD < mad)
       \/ ROTATION_THRESHOLD_DEG < Qabs (rotation_deg (tparams m))
       \/ SCALE_PERCENT_THRESHOLD < max_scale_pct (tparams m)
       \/ PERSPECTIVE_DISTORTION_PCT < perspective_distortion_pct m
       \/ (exists b c, In b df /\ crop_bbox_from_template_coords warped b 8 = Some c
                        /\ is_mostly_blank (Some c) 245 (98 # 100) = true)))
   /\ length reasons
      = (Nat.b2n (Qltb (confidence m) CONFIDENCE_THRESHOLD)
         + Nat.b2n (match residual_mad m with
                    | Some mad => Qltb RESIDUAL_MAD_THRESHOLD mad | None => false end)
         + Nat.b2n (Qltb ROTATION_THRESHOLD_DEG (Qabs (rotation_deg (tparams m))))
         + Nat.b2n (Qltb SCALE_PERCENT_THRESHOLD (max_scale_pct (tparams m)))
         + Nat.b2n (Qltb PERSPECTIVE_DISTORTION_PCT (perspective_distortion_pct m))
         + Nat.b2n (existsb (fun b => match crop_bbox_from_template_coords warped b 8 with
                                      | None => false
                                      | Some g => is_mostly_blank (Some g) 245 (98 # 100)
                                      end) df))%nat
   /\ ((exists b c, In b df /\ crop_bbox_from_template_coords warped b 8 = Some c
                    /\ is_mostly_blank (Some c) 245 (98 # 100) = true) -> flag = true))
  /\
  (let '(flag, reasons) := process_single_image_with_alignment_manual m in
   (flag = true <->
      (confidence m < CONFIDENCE_THRESHOLD
       \/ (exists mad, residual_mad m = Some mad /\ RESIDUAL_MAD_THRESHOLD < mad)
       \/ ROTATION_THRESHOLD_DEG < Qabs (rotation_deg (tparams m))
       \/ SCALE_PERCENT_THRESHOLD < max_scale_pct (tparams m)
       \/ PERSPECTIVE_DISTORTION_PCT < perspective_distortion_pct m))
   /\ length reasons
      = (Nat.b2n (Qltb (confidence m) CONFIDENCE_THRESHOLD)
         + Nat.b2n (match residual_mad m with
                    | Some mad => Qltb RESIDUAL_MAD_THRESHOLD mad | None => false end)
         + Nat.b2n (Qltb ROTATION_THRESHOLD_DEG (Qabs (rotation_deg (tparams m))))
         + Nat.b2n (Qltb SCALE_PERCENT_THRESHOLD (max_scale_pct (tparams m)))
         + Nat.b2n (Qltb PERSPECTIVE_DISTORTION_PCT (perspective_distortion_pct m)))%nat).
Proof.
  split.
  - unfold process_single_image_manual.
    rewrite (crop_loop warped df _ _ (heuristics_no_blank_reason m)).
    pose proof (blank_crop_exists warped df) as HB.
    pose proof (length_pos_iff m) as HL.
    destruct (existsb _ df) eqn:E.
    + split; [split; intros _; [right; right; right; right; right; apply HB; reflexivity
                               | reflexivity]|].
      split; [|intros _; reflexivity].
      rewrite length_app, heuristics_length. simpl. lia.
    + split.
      * split.
        -- intros H. apply HL in H. tauto.
        -- intros H. apply HL.
           destruct H as [H|[H|[H|[H|[H|H]]]]]; try tauto.
           apply HB in H. discriminate.
      * split; [|intros H; apply HB in H; discriminate].
        rewrite heuristics_length. simpl. lia.
  - unfold process_single_image_with_alignment_manual.
    split; [apply length_pos_iff | apply heuristics_length].
Qed.

End ManualCheckFacts.

Module AlignmentFacts.

Import Confidence Alignment.
Open Scope Q_scope.

Lemma doc_detect_step_method (found : option doc_candidate) (o : align_out) :
  doc_detect_step found = Some o -> used_method o = doc_detect.
Proof.
  destruct found as [c|]; simpl; [|discriminate].
  destruct (_ && _); [intros [= <-]; reflexivity | discriminate].
Qed.

Lemma feature_step_method (feat : option feature_candidate) (o : align_out) :
  feature_step feat = Some o -> used_method o = feature_homography.
Proof.
  destruct feat as [f|]; simpl; [|discriminate].
  destruct (_ && _); [intros [= <-]; reflexivity | discriminate].
Qed.

Lemma doc_warps_none (found : option doc_candidate) :
  doc_warps found = false -> doc_detect_step found = None.
Proof. unfold doc_warps. destruct (doc_detect_step found); [discriminate | reflexivity]. Qed.

Lemma feature_warps_none (feat : option feature_candidate) :
  feature_warps feat = false -> feature_step feat = None.
Proof. unfold feature_warps. destruct (feature_step feat); [discriminate | reflexivity]. Qed.

(** The fallback of both functions is only reached with [size_diff_ok]
    false, so it never takes its identity branch. *)
Lemma process_single_image_align_method (w h : Z) (contour : option doc_candidate) (o : align_out) :
  process_single_image_align w h contour = Ok o -> used_method o <> identity_after_failed_detection.
Proof.
  unfold process_single_image_align.
  destruct (size_diff_ok w h) eqn:Es; simpl.
  - intros [= <-]. discriminate.
  - destruct (doc_detect_step contour) as [o'|] eqn:Ed; simpl.
    + intros [= <-]. rewrite (doc_detect_step_method _ _ Ed). discriminate.
    + intros [= <-]. discriminate.
Qed.

Lemma process_single_image_with_alignment_align_method (w h : Z)
    (feat : option feature_candidate) (contour hough : option doc_candidate) (o : align_out) :
  process_single_image_with_alignment_align w h feat contour hough = Ok o ->
  used_method o <> identity_after_failed_detection.
Proof.
  unfold process_single_image_with_alignment_align.
  destruct (feature_step feat) as [of|] eqn:Ef; simpl.
  - intros [= <-]. rewrite (feature_step_method _ _ Ef). discriminate.
  - destruct (size_diff_ok w h) eqn:Es; simpl.
    + intros [= <-]. discriminate.
    + destruct (doc_detect_step _) as [o'|] eqn:Ed; simpl.
      * intros [= <-]. rewrite (doc_detect_step_method _ _ Ed). discriminate.
      * intros [= <-]. discriminate.
Qed.

Lemma with_alignment_resize (w h : Z) (feat : option feature_candidate)
    (contour hough : option doc_candidate) :
  size_diff_ok w h = false -> feature_warps feat = false ->
  doc_warps (match contour with Some c => Some c | None => hough end) = false ->
  process_single_image_with_alignment_align w h feat contour hough
  = Ok (mk_align simple_resize_fallback 0 0 false).
Proof.
  intros Hs Hf Hd. unfold process_single_image_with_alignment_align.
  rewrite (feature_warps_none _ Hf), Hs, (doc_warps_none _ Hd). reflexivity.
Qed.

(** C10.  With the image size outside the 2 % tolerance and no detection
    producing a warp, both functions use [simple_resize_fallback] with
    confidence 0; and no input ever yields
    [identity_after_failed_detection]. *)
Theorem resize_fallback_when_size_differs (w h : Z) (feat : option feature_candidate)
    (contour hough : option doc_candidate) :
  size_diff_ok w h = false ->
  feature_warps feat = false ->
  doc_warps contour = false ->
  doc_warps (match contour with Some c => Some c | None => hough end) = false ->
  process_single_image_align w h contour = Ok (mk_align simple_resize_fallback 0 0 false)
  /\ process_single_image_with_alignment_align w h feat contour hough
     = Ok (mk_align simple_resize_fallback 0 0 false)
  /\ (forall w' h' feat' contour' hough' o,
        process_single_image_align w' h' contour' = Ok o
        \/ process_single_image_with_alignment_align w' h' feat' contour' hough' = Ok o ->
        used_method o <> identity_after_failed_detection).
Proof.
  intros Hs Hf Hd Hd'. split; [|split].
  - unfold process_single_image_align. rewrite Hs, (doc_warps_none _ Hd). reflexivity.
  - apply with_alignment_resize; assumption.
  - intros w' h' feat' contour' hough' o [H|H].
    + exact (process_single_image_align_method _ _ _ _ H).
    + exact (process_single_image_with_alignment_align_method _ _ _ _ _ _ H).
Qed.

Lemma resize_fallback_when_size_differs_witness :
  size_diff_ok 1000 1000 = false /\ feature_warps None = false /\ doc_warps None = false
  /\ process_single_image_align 1000 1000 None = Ok (mk_align simple_resize_fallback 0 0 false).
Proof.
  split; [reflexivity|]. split; [reflexivity|]. split; [reflexivity|].
  exact (proj1 (resize_fallback_when_size_differs 1000 1000 None None None
                  eq_refl eq_refl eq_refl eq_refl)).
Defined.

End AlignmentFacts.

Module TrainAlignFacts.

Import TrainAlign.

(** With the three detectors all returning [None], [align_page] raises
    [RuntimeError("Page quad not found.")]. *)
Lemma align_page_all_none :
  align_page PyNone PyNone PyNone = Raise RuntimeError_page_quad_not_found.
Proof. reflexivity. Qed.

(** When [detect_quad_bright] returns its 4x2 array, [bright or ...] asks for
    the truth value of the array and raises [ValueError]. *)
Lemma align_page_bright_found (q : list point) (lsd minrect : pyval) :
  length q = 4%nat ->
  align_page (PyArray q) lsd minrect = Raise ValueError_truth_value_ambiguous.
Proof. intros Hq. unfold align_page, py_or, truthy. rewrite Hq. reflexivity. Qed.

(** C9 (as the code behaves).  When bright-paper, line-segment and
    min-rectangle detection all return no quadrilateral, [align_page]
    raises [RuntimeError]; [process_single_image_with_alignment] instead
    never fails on a detection failure: with no size match and no detection
    producing a warp it returns the simple-resize fallback with confidence
    0. *)
Theorem align_page_raises_on_total_failure :
  align_page PyNone PyNone PyNone = Raise RuntimeError_page_quad_not_found
  /\ (forall w h feat contour hough,
        Alignment.size_diff_ok w h = false ->
        Alignment.feature_warps feat = false ->
        Alignment.doc_warps (match contour with Some c => Some c | None => hough end) = false ->
        Alignment.process_single_image_with_alignment_align w h feat contour hough
        = Alignment.Ok (Alignment.mk_align Alignment.simple_resize_fallback 0 0 false)).
Proof.
  split; [exact align_page_all_none|].
  intros w h feat contour hough Hs Hf Hd.
  apply AlignmentFacts.with_alignment_resize; assumption.
Qed.

(** C9 as stated fails: with every detection failing and the size outside
    the tolerance, the Segment.py pipeline returns an image instead of
    surfacing a failure. *)
Lemma total_failure_not_surfaced :
  ~ (forall w h feat contour hough,
        Alignment.size_diff_ok w h = false ->
        Alignment.feature_warps feat = false ->
        Alignment.doc_warps (match contour with Some c => Some c | None => hough end) = false ->
        exists e, Alignment.process_single_image_with_alignment_align w h feat contour hough
                  = Alignment.Err e).
Proof.
  intros H. destruct (H 1000%Z 1000%Z None None None eq_refl eq_refl eq_refl) as [e He].
  discriminate He.
Qed.

End TrainAlignFacts.

Module CornersFacts.

Import Corners.
Open Scope Z_scope.

Lemma argmin_from_unique (key : point -> Z) (x : point) (l : list point) :
  forall best,
  In x (best :: l) ->
  (forall y, In y (best :: l) -> y <> x -> key x < key y) ->
  argmin_from key best l = x.
Proof.
  induction l as [|p l IH]; intros best Hin Hmin; simpl.
  - destruct Hin as [Hin|[]]. exact Hin.
  - apply IH.
    + destruct Hin as [<-|[<-|Hin]].
      * destruct (point_eq_dec p best) as [->|Hp]; [destruct (key best <? key best); simpl; auto|].
        assert (H := Hmin p (or_intror (or_introl eq_refl)) Hp).
        destruct (Z.ltb_spec (key p) (key best)); [lia|]. left; reflexivity.
      * destruct (point_eq_dec best p) as [->|Hp]; [destruct (key p <? key p); left; reflexivity|].
        assert (H := Hmin best (or_introl eq_refl) Hp).
        destruct (Z.ltb_spec (key p) (key best)); [left; reflexivity|lia].
      * right. exact Hin.
    + intros y Hy Hyx. apply Hmin; [|exact Hyx].
      destruct Hy as [<-|Hy].
      * destruct (key p <? key best); [right; left; reflexivity | left; reflexivity].
      * right; right; exact Hy.
Qed.

Lemma pick_argmin_unique (key : point -> Z) (d x : point) (l : list point) :
  unique_min key l x -> pick_argmin key d l = x.
Proof.
  intros [Hin Hmin]. destruct l as [|p l]; [destruct Hin|].
  apply argmin_from_unique; assumption.
Qed.

Lemma pick_argmax_unique (key : point -> Z) (d x : point) (l : list point) :
  unique_max key l x -> pick_argmax key d l = x.
Proof.
  intros [Hin Hmax]. apply pick_argmin_unique. split; [exact Hin|].
  intros y Hy Hyx. specialize (Hmax y Hy Hyx). lia.
Qed.

Lemma unique_min_perm (key : point -> Z) (l l' : list point) (x : point) :
  Permutation l l' -> unique_min key l x -> unique_min key l' x.
Proof.
  intros Hp [Hin Hmin]. split.
  - exact (Permutation_in _ Hp Hin).
  - intros y Hy. apply Hmin. apply (Permutation_in _ (Permutation_sym Hp) Hy).
Qed.

Lemma unique_max_perm (key : point -> Z) (l l' : list point) (x : point) :
  Permutation l l' -> unique_max key l x -> unique_max key l' x.
Proof.
  intros Hp [Hin Hmax]. split.
  - exact (Permutation_in _ Hp Hin).
  - intros y Hy. apply Hmax. apply (Permutation_in _ (Permutation_sym Hp) Hy).
Qed.

(** C3 (as the code behaves).  When each extreme (least [x+y], least
    [y-x], greatest [x+y], greatest [y-x]) is attained by a single point,
    [order_points] and [order_corners] return (top-left, top-right,
    bottom-right, bottom-left) = those extremes, whatever the order of the
    input points. *)
Theorem order_points_perm_invariant (l l' : list point) (tl tr br bl : point) :
  Permutation l l' ->
  unique_min psum l tl -> unique_min pdiff l tr ->
  unique_max psum l br -> unique_max pdiff l bl ->
  order_points l' = (tl, tr, br, bl) /\ order_corners l' = (tl, tr, br, bl).
Proof.
  intros Hp Htl Htr Hbr Hbl.
  apply (unique_min_perm _ _ _ _ Hp) in Htl.
  apply (unique_min_perm _ _ _ _ Hp) in Htr.
  apply (unique_max_perm _ _ _ _ Hp) in Hbr.
  apply (unique_max_perm _ _ _ _ Hp) in Hbl.
  unfold order_points, order_corners.
  rewrite (pick_argmin_unique _ _ _ _ Htl), (pick_argmin_unique _ _ _ _ Htr),
    (pick_argmax_unique _ _ _ _ Hbr), (pick_argmax_unique _ _ _ _ Hbl).
  split; reflexivity.
Qed.

Lemma order_points_perm_invariant_witness :
  order_points [(2, 2); (0, 2); (0, 0); (2, 0)] = ((0, 0), (2, 0), (2, 2), (0, 2)).
Proof.
  refine (proj1 (order_points_perm_invariant [(0, 0); (2, 0); (2, 2); (0, 2)]
                   [(2, 2); (0, 2); (0, 0); (2, 0)] (0, 0) (2, 0) (2, 2) (0, 2) _ _ _ _ _)).
  - apply (Permutation_trans (l' := [(0, 0); (2, 0); (2, 2); (0, 2)] ++ [])).
    + rewrite app_nil_r. apply Permutation_refl.
    + change [(2, 2); (0, 2); (0, 0); (2, 0)] with ([(2, 2); (0, 2)] ++ [(0, 0); (2, 0)]).
      rewrite app_nil_r. apply (Permutation_app_comm [(0, 0); (2, 0)] [(2, 2); (0, 2)]).
  - split; [simpl; tauto|]. intros y Hy Hne.
    destruct Hy as [<-|[<-|[<-|[<-|[]]]]]; unfold psum; simpl; try lia; congruence.
  - split; [simpl; tauto|]. intros y Hy Hne.
    destruct Hy as [<-|[<-|[<-|[<-|[]]]]]; unfold pdiff; simpl; try lia; congruence.
  - split; [simpl; tauto|]. intros y Hy Hne.
    destruct Hy as [<-|[<-|[<-|[<-|[]]]]]; unfold psum; simpl; try lia; congruence.
  - split; [simpl; tauto|]. intros y Hy Hne.
    destruct Hy as [<-|[<-|[<-|[<-|[]]]]]; unfold pdiff; simpl; try lia; congruence.
Defined.

(** C3 as stated fails: the four corners of a diamond share their least
    [x+y] (and their [y-x] extremes) two by two, and reordering the input
    changes the returned top-left corner. *)
Lemma order_points_depends_on_order :
  ~ (forall l l' : list point, length l = 4%nat -> Permutation l l' ->
       order_points l = order_points l').
Proof.
  intros H.
  assert (Hp : Permutation [(1, 0); (2, 1); (1, 2); (0, 1)] [(0, 1); (2, 1); (1, 2); (1, 0)]).
  { apply (Permutation_trans (l' := [(0, 1); (1, 0); (2, 1); (1, 2)])).
    - apply Permutation_sym, (Permutation_cons_append [(1, 0); (2, 1); (1, 2)] (0, 1)).
    - apply perm_skip. apply (Permutation_cons_append [(2, 1); (1, 2)] (1, 0)). }
  specialize (H _ _ (eq_refl : length [(1, 0); (2, 1); (1, 2); (0, 1)] = 4%nat) Hp).
  vm_compute in H. discriminate H.
Qed.

End CornersFacts.

(* ================================================================== *)
(** ** Facts about [final_hybrid_crop_after_deskew] *)
(* ================================================================== *)

Module FinalCropFacts.

Import FinalCrop.
Open Scope Z_scope.

(** Claim C4 (failing input).  A 2000 x 2000 page with no ink above the
    projection threshold and a small paper box [(0, 0, 8, 8)] in the top-left
    corner takes the paper-only branch (model.py 247-253): [x0 = max(20, -8)
    = 20] and [x1 = min(1980, 16) = 16], so the returned slice
    [rgb[20:16, 20:16]] is empty: its width and its height are both 0. *)
Theorem paper_only_branch_empty_crop :
  let r := final_hybrid_crop_after_deskew 2000 2000
             (repeat 0%Q 2000) (repeat 0%Q 2000) (Some (0, 0, 8, 8)) 8 in
  r = mk_region 20 16 20 16 /\ width r = 0 /\ height r = 0.
Proof. vm_compute. repeat split. Qed.

End FinalCropFacts.

(* ================================================================== *)
(** ** Facts about [split_rows] and [attach_answer_boxes] *)
(* ================================================================== *)

Module RowsFacts.

Import Rows.
Open Scope Z_scope.

(** [a] ends strictly above the top of [b], both with a positive height. *)
Definition sep (a b : box) : Prop :=
  0 < bx_h a /\ 0 < bx_h b /\ bx_y a + bx_h a < bx_y b.

Lemma sep_trans : Relations_1.Transitive sep.
Proof. intros a b c [? [? ?]] [? [? ?]]. unfold sep. lia. Qed.

Definition top_le (a b : box) : Prop := bx_y a <= bx_y b.

(** What the scan loop of [split_rows] maintains at position [y]. *)
Definition scan_inv (y : Z) (st : scan_state) : Prop :=
  0 <= seg_y0 st /\ (in_seg st = true -> seg_y0 st <= y) /\
  Forall (fun s => 0 < bx_h s) (segments st) /\
  StronglySorted top_le (segments st) /\
  Forall (fun s => bx_y s <= Z.max 0 ((if in_seg st then seg_y0 st else y) - 4))
    (segments st).

Lemma StronglySorted_snoc {A} (R : A -> A -> Prop) (l : list A) (x : A) :
  StronglySorted R l -> Forall (fun a => R a x) l -> StronglySorted R (l ++ [x]).
Proof.
  induction l as [|a l IH]; simpl; intros Hs Hf.
  - repeat constructor.
  - apply StronglySorted_inv in Hs as [Hs Ha]. inversion Hf; subst.
    constructor; [apply IH; assumption|].
    apply Forall_app. split; [assumption|]. constructor; [assumption|constructor].
Qed.

Lemma bound_mono (l : list box) (a b : Z) :
  a <= b -> Forall (fun s => bx_y s <= Z.max 0 (a - 4)) l ->
  Forall (fun s => bx_y s <= Z.max 0 (b - 4)) l.
Proof. intros Hab. apply Forall_impl. intros s Hs. lia. Qed.

Lemma scan_close_inv (H W y y0 : Z) (segs : list box) (min_h : Z) :
  0 < min_h -> 0 <= y0 -> y0 <= y -> y <= H - 1 ->
  Forall (fun s => 0 < bx_h s) segs -> StronglySorted top_le segs ->
  Forall (fun s => bx_y s <= Z.max 0 (y0 - 4)) segs ->
  scan_inv (y + 1)
    (if min_h <=? y - y0 then
       mk_scan false y0
         (segs ++ [(0, Z.max 0 (y0 - 4), W, Z.min (H - 1) (y + 4) - Z.max 0 (y0 - 4))])
     else mk_scan false y0 segs).
Proof.
  intros Hm Hy0 Hyy HyH Hp Hs Hb.
  destruct (min_h <=? y - y0) eqn:Em; unfold scan_inv; simpl.
  - apply Z.leb_le in Em.
    refine (conj Hy0 (conj (fun e : false = true => False_ind _ (diff_false_true e)) (conj _ (conj _ _)))).
    + apply Forall_app. split; [assumption|]. constructor; [|constructor]. simpl. lia.
    + apply StronglySorted_snoc; [assumption|].
      eapply Forall_impl; [|exact Hb]. intros s Hs'. exact Hs'.
    + apply Forall_app. split.
      * apply (bound_mono _ y0); [lia|assumption].
      * constructor; [|constructor]. simpl. lia.
  - refine (conj Hy0 (conj (fun e : false = true => False_ind _ (diff_false_true e)) (conj Hp (conj Hs _)))).
    apply (bound_mono _ y0); [lia|assumption].
Qed.

Lemma scan_step_inv (H W min_h y : Z) (st : scan_state) (a : bool) :
  0 < min_h -> 0 <= y -> y <= H - 1 -> scan_inv y st ->
  scan_inv (y + 1) (scan_step H W min_h st y a).
Proof.
  intros Hm Hy HyH [H0 [H1 [H2 [H3 H4]]]].
  destruct st as [ins y0 segs]; simpl in *.
  unfold scan_step; simpl.
  destruct a, ins; simpl in *.
  - (* in a segment, row above the threshold *)
    destruct (y =? H - 1) eqn:Ey; simpl.
    + apply scan_close_inv; auto.
    + specialize (H1 eq_refl).
      refine (conj H0 (conj _ (conj H2 (conj H3 H4)))). intros _; simpl; lia.
  - (* row above the threshold opens a segment *)
    refine (conj Hy (conj _ (conj H2 (conj H3 H4)))). intros _; simpl; lia.
  - (* in a segment, row below the threshold closes it *)
    apply scan_close_inv; auto.
  - (* outside a segment, row below the threshold *)
    refine (conj H0 (conj (fun e : false = true => False_ind _ (diff_false_true e)) (conj H2 (conj H3 _)))).
    eapply bound_mono; [|exact H4]. simpl. lia.
Qed.

Lemma scan_inv_all (H W min_h : Z) (ab : list bool) :
  forall y st, 0 < min_h -> 0 <= y -> y + Z.of_nat (length ab) = H ->
  scan_inv y st -> scan_inv (y + Z.of_nat (length ab)) (scan H W min_h st y ab).
Proof.
  induction ab as [|a ab IH]; intros y st Hm Hy HL Hi; cbn [scan length].
  - replace (y + Z.of_nat 0) with y by lia. exact Hi.
  - cbn [length] in HL.
    replace (y + Z.of_nat (S (length ab))) with ((y + 1) + Z.of_nat (length ab)) by lia.
    apply IH; try lia.
    apply scan_step_inv; try lia; assumption.
Qed.

(** The merge loop returns [sep]-sorted rows, the first one starting
    where [cur] starts. *)
Lemma merge_from_sorted (rest : list box) :
  forall cur, 0 < bx_h cur ->
  Forall (fun s => bx_y cur <= bx_y s /\ 0 < bx_h s) rest ->
  StronglySorted top_le rest ->
  Sorted sep (merge_from cur rest) /\
  exists c l', merge_from cur rest = c :: l' /\ bx_y c = bx_y cur /\ 0 < bx_h c.
Proof.
  induction rest as [|s rest IH]; intros cur Hc Hf Hs.
  - simpl. split; [repeat constructor|]. exists cur, []. auto.
  - destruct cur as [[[px py] pw] ph].
    apply StronglySorted_inv in Hs as [Hs Hsr].
    inversion Hf as [|? ? [Hps Hsh] Hfr]; subst.
    simpl. destruct (bx_y s <=? py + ph + 12) eqn:E.
    + apply IH; simpl in *.
      * lia.
      * apply Forall_forall. intros r Hr.
        rewrite Forall_forall in Hfr, Hsr.
        specialize (Hfr r Hr). specialize (Hsr r Hr). unfold top_le in Hsr. lia.
      * assumption.
    + apply Z.leb_gt in E.
      destruct (IH s Hsh) as [HS [c [l' [Hm [Hcy Hch]]]]].
      * apply Forall_forall. intros r Hr.
        rewrite Forall_forall in Hfr, Hsr.
        specialize (Hfr r Hr). specialize (Hsr r Hr). unfold top_le in Hsr. lia.
      * assumption.
      * split.
        -- rewrite Hm in *. constructor; [assumption|].
           constructor. unfold sep. simpl in *. lia.
        -- eexists _, _. split; [reflexivity|]. simpl in *. split; [reflexivity|lia].
Qed.

Lemma merge_segments_sorted (segs : list box) :
  Forall (fun s => 0 < bx_h s) segs -> StronglySorted top_le segs ->
  StronglySorted sep (merge_segments segs).
Proof.
  intros Hp Hs. apply Sorted_StronglySorted; [exact sep_trans|].
  destruct segs as [|s rest]; simpl; [constructor|].
  inversion Hp; subst. apply StronglySorted_inv in Hs as [Hs Hsr].
  apply merge_from_sorted; try assumption.
  apply Forall_forall. intros r Hr.
  rewrite Forall_forall in Hsr, H2. split; [apply Hsr|apply H2]; assumption.
Qed.

Lemma cut_row_spec (tc : Z) (b b' : box) :
  cut_row tc b = Some b' ->
  tc <= bx_y b' /\ bx_y b <= bx_y b' /\ 0 < bx_h b'
  /\ bx_y b' + bx_h b' = bx_y b + bx_h b.
Proof.
  destruct b as [[[x y] w] h]. unfold cut_row.
  destruct ((tc <? y + h) && (Z.max y tc - y <? h)) eqn:E; [|discriminate].
  intros Heq; injection Heq as <-.
  apply andb_true_iff in E as [_ E]. apply Z.ltb_lt in E. simpl. lia.
Qed.

Lemma cut_rows_forall (tc : Z) (P : box -> Prop) (l : list box) :
  (forall b b', In b l -> cut_row tc b = Some b' -> P b') -> Forall P (cut_rows tc l).
Proof.
  induction l as [|b l IH]; intros Hp; simpl; [constructor|].
  destruct (cut_row tc b) as [b'|] eqn:E.
  - constructor; [apply (Hp b); simpl; auto|].
    apply IH. intros c c' Hc. apply Hp. simpl; auto.
  - apply IH. intros c c' Hc. apply Hp. simpl; auto.
Qed.

Lemma cut_rows_sorted (tc : Z) (l : list box) :
  StronglySorted sep l -> StronglySorted sep (cut_rows tc l).
Proof.
  induction l as [|b l IH]; intros Hs; simpl; [constructor|].
  apply StronglySorted_inv in Hs as [Hs Hb].
  destruct (cut_row tc b) as [b'|] eqn:E; [|apply IH; assumption].
  constructor; [apply IH; assumption|].
  apply cut_rows_forall. intros c c' Hc Ec.
  rewrite Forall_forall in Hb. specialize (Hb c Hc).
  apply cut_row_spec in E. apply cut_row_spec in Ec.
  unfold sep in *. lia.
Qed.

Lemma split_rows_sorted (proj : list Z) (W : Z) (frac : Q) :
  StronglySorted sep (split_rows proj W frac).
Proof.
  unfold split_rows.
  apply cut_rows_sorted.
  set (H := Z.of_nat (length proj)).
  set (ab := map _ proj).
  assert (Hi : scan_inv (0 + Z.of_nat (length ab))
                 (scan H W (Z.max 40 (H / 40)) (mk_scan false 0 []) 0 ab)).
  { apply scan_inv_all; try lia.
    - subst ab H. rewrite length_map. lia.
    - unfold scan_inv; simpl.
      refine (conj (Z.le_refl 0) (conj (fun e : false = true => False_ind _ (diff_false_true e))
                (conj (Forall_nil _) (conj (SSorted_nil _) (Forall_nil _))))). }
  destruct Hi as [_ [_ [Hp [Hs _]]]].
  apply merge_segments_sorted; assumption.
Qed.

Lemma split_rows_top (proj : list Z) (W : Z) (frac : Q) :
  Forall (fun b => py_int (inject_Z (Z.of_nat (length proj)) * frac)%Q <= bx_y b)
    (split_rows proj W frac).
Proof.
  unfold split_rows. apply cut_rows_forall. intros b b' _ E.
  apply cut_row_spec in E. lia.
Qed.

Lemma insert_by_y_last (b : box) (acc : list box) :
  Forall (fun c => bx_y c <= bx_y b) acc -> insert_by_y b acc = acc ++ [b].
Proof.
  induction acc as [|c acc IH]; intros Hf; simpl; [reflexivity|].
  inversion Hf; subst.
  destruct (bx_y b <? bx_y c) eqn:E; [apply Z.ltb_lt in E; lia|].
  rewrite IH; auto.
Qed.

Lemma StronglySorted_app_before {A} (R : A -> A -> Prop) (acc l : list A) (x : A) :
  StronglySorted R (acc ++ x :: l) -> Forall (fun c => R c x) acc.
Proof.
  induction acc as [|a acc IH]; simpl; intros Hs; [constructor|].
  apply StronglySorted_inv in Hs as [Hs Ha].
  constructor; [|apply IH; assumption].
  rewrite Forall_forall in Ha. apply Ha. apply in_or_app. simpl. auto.
Qed.

Lemma sort_by_y_sorted_aux (l : list box) :
  forall acc, StronglySorted sep (acc ++ l) ->
  fold_left (fun acc b => insert_by_y b acc) l acc = acc ++ l.
Proof.
  induction l as [|b l IH]; intros acc Hs; simpl; [rewrite app_nil_r; reflexivity|].
  rewrite insert_by_y_last.
  - rewrite IH; [rewrite <- app_assoc; reflexivity|].
    rewrite <- app_assoc. exact Hs.
  - apply StronglySorted_app_before in Hs.
    eapply Forall_impl; [|exact Hs]. intros c Hc. unfold sep in Hc. lia.
Qed.

Lemma sort_by_y_sorted (l : list box) :
  StronglySorted sep l -> sort_by_y l = l.
Proof. intros Hs. unfold sort_by_y. apply (sort_by_y_sorted_aux l []). exact Hs. Qed.

Lemma attach_from_bbox cr band (l : list box) :
  forall qid, map row_bbox (attach_from cr band qid l) = l.
Proof.
  induction l as [|[[[x y] w] h] l IH]; intros qid; simpl; [reflexivity|].
  destruct band as [[[bx by_] bw] bh].
  destruct ((by_ <=? y + h / 2) && (y + h / 2 <=? by_ + bh)); simpl; f_equal; apply IH.
Qed.

Lemma attach_from_ids cr band (l : list box) :
  forall qid, map row_id (attach_from cr band qid l) = seq qid (length l).
Proof.
  induction l as [|[[[x y] w] h] l IH]; intros qid; simpl; [reflexivity|].
  destruct band as [[[bx by_] bw] bh].
  destruct ((by_ <=? y + h / 2) && (y + h / 2 <=? by_ + bh)); simpl; f_equal; apply IH.
Qed.

Lemma StronglySorted_map_inv {A B} (R : B -> B -> Prop) (f : A -> B) (l : list A) :
  StronglySorted R (map f l) -> StronglySorted (fun a b => R (f a) (f b)) l.
Proof.
  induction l as [|a l IH]; simpl; intros Hs; [constructor|].
  apply StronglySorted_inv in Hs as [Hs Ha]. constructor; [apply IH; assumption|].
  apply Forall_forall. intros b Hb. rewrite Forall_forall in Ha.
  apply Ha. apply in_map. exact Hb.
Qed.

Lemma StronglySorted_weaken {A} (R R' : A -> A -> Prop) (l : list A) :
  (forall a b, R a b -> R' a b) -> StronglySorted R l -> StronglySorted R' l.
Proof.
  intros Himp. induction l as [|a l IH]; intros Hs; [constructor|].
  apply StronglySorted_inv in Hs as [Hs Ha]. constructor; [apply IH; assumption|].
  eapply Forall_impl; [|exact Ha]. exact (Himp a).
Qed.

(** Claim C5 (amended).  For every row projection, band, cut-off fraction
    and contour detector, the rows returned by [attach_answer_boxes] after
    [split_rows] are ordered so that every row lies strictly above every
    later row without overlapping it (so their tops strictly increase),
    every row's top is at least the pixel cut-off [int(H * min_y_frac)],
    and the ids are 1, 2, ..., n in that top-to-bottom order. *)
Theorem split_rows_attach_order (cr : Z -> Z -> list box) (proj : list Z) (W : Z)
    (frac : Q) (band : box) :
  let rows := attach_answer_boxes cr (split_rows proj W frac) band in
  StronglySorted above_disjoint rows
  /\ Forall (fun r => py_int (inject_Z (Z.of_nat (length proj)) * frac)%Q
                      <= bx_y (row_bbox r)) rows
  /\ map row_id rows = seq 1 (length rows).
Proof.
  intros rows. subst rows. unfold attach_answer_boxes.
  rewrite (sort_by_y_sorted _ (split_rows_sorted proj W frac)).
  split; [|split].
  - apply (StronglySorted_weaken (fun a b => sep (row_bbox a) (row_bbox b))).
    + intros a b Hab. unfold sep, above_disjoint in *. lia.
    + apply (StronglySorted_map_inv sep row_bbox).
      rewrite attach_from_bbox. apply split_rows_sorted.
  - apply Forall_forall. intros r Hr.
    pose proof (split_rows_top proj W frac) as Ht. rewrite Forall_forall in Ht.
    apply (Ht (row_bbox r)).
    rewrite <- (attach_from_bbox cr band (split_rows proj W frac) 1).
    apply in_map. exact Hr.
  - rewrite attach_from_ids. f_equal.
    rewrite <- (length_map row_bbox), attach_from_bbox. reflexivity.
Qed.

(** Claim C5 (counterexample).  On a 100-row page whose first 60 rows are
    all ink (width 10) and [min_y_frac = 1/8], the cut-off height is
    [100 * 1/8 = 12.5] but the single row returned starts at
    [int(12.5) = 12], above the cut-off. *)
Theorem row_top_above_fractional_cutoff :
  ~ (forall (cr : Z -> Z -> list box) (proj : list Z) (W : Z) (frac : Q) (band : box),
       Forall (fun r => (inject_Z (Z.of_nat (length proj)) * frac
                         <= inject_Z (bx_y (row_bbox r)))%Q)
         (attach_answer_boxes cr (split_rows proj W frac) band)).
Proof.
  intros Hall.
  specialize (Hall (fun _ _ => []) (repeat 2550 60 ++ repeat 0 40) 10 (1 # 8) (0, 0, 0, 0)).
  vm_compute in Hall. apply Forall_inv in Hall. vm_compute in Hall. apply Hall. reflexivity.
Qed.

End RowsFacts.

(* ================================================================== *)
(** ** Facts about [decompose_homography] and the perspective measure *)
(* ================================================================== *)

Module HomographyFacts.

Import Homography.
Open Scope R_scope.

Lemma mat2_eq (A B : mat2) :
  m00 A = m00 B -> m01 A = m01 B -> m10 A = m10 B -> m11 A = m11 B -> A = B.
Proof. destruct A, B; simpl; intros; subst; reflexivity. Qed.

Lemma mul2_assoc (A B C : mat2) : mul2 (mul2 A B) C = mul2 A (mul2 B C).
Proof. apply mat2_eq; unfold mul2; simpl; ring. Qed.

Lemma mul2_I_r (A : mat2) : mul2 A I2 = A.
Proof. apply mat2_eq; unfold mul2, I2; simpl; ring. Qed.

Lemma mul2_I_l (A : mat2) : mul2 I2 A = A.
Proof. apply mat2_eq; unfold mul2, I2; simpl; ring. Qed.

Lemma tr2_mul (A B : mat2) : tr2 (mul2 A B) = mul2 (tr2 B) (tr2 A).
Proof. apply mat2_eq; unfold mul2, tr2; simpl; ring. Qed.

Lemma tr2_diag (a b : R) : tr2 (diag2 a b) = diag2 a b.
Proof. reflexivity. Qed.

(** The range of [math.atan2]. *)
Lemma atan2_range (y x : R) : - PI < atan2 y x <= PI.
Proof.
  pose proof PI_RGT_0 as Hpi. unfold atan2.
  destruct (Rlt_dec 0 x) as [Hx|Hx].
  - pose proof (atan_bound (y / x)) as Hb. lra.
  - destruct (Rlt_dec x 0) as [Hx'|Hx'].
    + pose proof (Rinv_lt_0_compat x Hx') as Hi.
      pose proof (atan_bound (y / x)) as Hb.
      destruct (Rle_dec 0 y) as [Hy|Hy].
      * assert (Hq : y / x <= 0) by (unfold Rdiv; nra).
        assert (Ha : atan (y / x) <= 0).
        { destruct (Req_dec (y / x) 0) as [E|E].
          - rewrite E, atan_0. lra.
          - pose proof (atan_increasing (y / x) 0 ltac:(lra)) as Hm.
            rewrite atan_0 in Hm. lra. }
        lra.
      * assert (Hq : 0 < y / x) by (unfold Rdiv; nra).
        pose proof (atan_increasing 0 (y / x) Hq) as Hm. rewrite atan_0 in Hm. lra.
    + destruct (Rlt_dec 0 y); [lra|]. destruct (Rlt_dec y 0); lra.
Qed.

Lemma degrees_range (a : R) : - PI < a <= PI -> -180 < degrees a <= 180.
Proof.
  intros [H1 H2]. pose proof PI_RGT_0 as Hpi. unfold degrees.
  set (u := a * 180 / PI).
  assert (Hu : a * 180 = u * PI) by (unfold u; field; lra).
  split; nra.
Qed.

(** [atan2(sin t, cos t) = t] on the principal range. *)
Lemma atan2_sin_cos (t : R) : - PI < t <= PI -> atan2 (sin t) (cos t) = t.
Proof.
  intros [H1 H2]. pose proof PI_RGT_0 as Hpi. unfold atan2.
  destruct (Rtotal_order t (- (PI / 2))) as [Ht|[Ht|Ht]].
  - (* -PI < t < -PI/2 *)
    assert (Hc : cos t < 0).
    { rewrite <- cos_neg. apply cos_lt_0; lra. }
    assert (Hs : sin t < 0).
    { rewrite <- (Ropp_involutive t), sin_neg. pose proof (sin_gt_0 (- t)) as Hg. lra. }
    destruct (Rlt_dec 0 (cos t)); [lra|].
    destruct (Rlt_dec (cos t) 0); [|lra].
    destruct (Rle_dec 0 (sin t)); [lra|].
    assert (E : sin t / cos t = tan (t + PI)).
    { unfold tan. rewrite neg_sin, neg_cos. field. lra. }
    rewrite E, atan_tan; lra.
  - (* t = -PI/2 *)
    subst t. rewrite cos_neg, sin_neg, cos_PI2, sin_PI2.
    destruct (Rlt_dec 0 0); [lra|]. destruct (Rlt_dec 0 0); [lra|].
    destruct (Rlt_dec 0 (- (1))); [lra|]. destruct (Rlt_dec (- (1)) 0); [reflexivity|lra].
  - destruct (Rtotal_order t (PI / 2)) as [Ht'|[Ht'|Ht']].
    + (* -PI/2 < t < PI/2 *)
      pose proof (cos_gt_0 t Ht Ht') as Hc.
      destruct (Rlt_dec 0 (cos t)); [|lra].
      change (sin t / cos t) with (tan t). apply atan_tan. lra.
    + (* t = PI/2 *)
      subst t. rewrite cos_PI2, sin_PI2.
      destruct (Rlt_dec 0 0); [lra|]. destruct (Rlt_dec 0 0); [lra|].
      destruct (Rlt_dec 0 1); [reflexivity|lra].
    + (* PI/2 < t <= PI *)
      assert (Hc : cos t < 0) by (apply cos_lt_0; lra).
      assert (Hs : 0 <= sin t) by (apply sin_ge_0; lra).
      destruct (Rlt_dec 0 (cos t)); [lra|].
      destruct (Rlt_dec (cos t) 0); [|lra].
      destruct (Rle_dec 0 (sin t)); [|lra].
      assert (E : sin t / cos t = tan (t - PI)).
      { unfold tan.
        assert (Ec : cos t = - cos (t - PI)) by (rewrite <- neg_cos; f_equal; ring).
        assert (Es : sin t = - sin (t - PI)) by (rewrite <- neg_sin; f_equal; ring).
        rewrite Ec in Hc |- *. rewrite Es. field. intros E0. rewrite E0 in Hc. lra. }
      rewrite E, atan_tan; lra.
Qed.

Lemma cos_sin_sq (t : R) : cos t * cos t + sin t * sin t = 1.
Proof. pose proof (sin2_cos2 t) as H. unfold Rsqr in H. lra. Qed.

Lemma det_rot (theta : R) : det2 (rot theta) = 1.
Proof.
  unfold det2, rot; simpl. rewrite <- (cos_sin_sq (theta * PI / 180)). ring.
Qed.

Lemma normalize_affine (H : mat3) : h22 H = 1 -> normalize H = H.
Proof.
  destruct H as [a b c d e f g h i]; simpl; intros ->.
  unfold normalize, scale3; simpl. rewrite Rabs_R1.
  destruct (Rlt_dec 1 (1 / 1000000000000)) as [Hl|_]; [lra|].
  rewrite !Rdiv_1_r. reflexivity.
Qed.

Lemma linear_part_similarity (theta sx sy tx0 ty0 : R) :
  linear_part (normalize (similarity_homography theta sx sy tx0 ty0))
  = mul2 (rot theta) (diag2 sx sy).
Proof.
  rewrite normalize_affine by reflexivity.
  apply mat2_eq; reflexivity.
Qed.

Lemma rot_0 : rot 0 = I2.
Proof.
  unfold rot. replace (0 * PI / 180) with 0 by field.
  rewrite cos_0, sin_0, Ropp_0. reflexivity.
Qed.

(** [d^2 z = z s^2] with [d, s >= 0] gives [d z = z s]. *)
Lemma sq_cancel (d s z : R) : 0 <= d -> 0 <= s -> d * d * z = z * (s * s) -> d * z = z * s.
Proof.
  intros Hd Hs E. destruct (Req_dec z 0) as [->|Hz]; [ring|].
  assert (Hds : d = s).
  { apply Rsqr_inj; try assumption. unfold Rsqr.
    apply (Rmult_eq_reg_r z); [|exact Hz]. rewrite E. ring. }
  subst. ring.
Qed.

Lemma cancel_nz (a b v : R) : v <> 0 -> a * v = v * b -> a = b.
Proof. intros Hv E. apply (Rmult_eq_reg_r v); [rewrite E; ring|exact Hv]. Qed.

Lemma unit_nz (v : R) : v * v = 1 -> v <> 0.
Proof. intros E Hv. rewrite Hv in E. lra. Qed.

(** The singular values of [rot theta * diag(sx, sy)] from the
    eigen-equations [D V = V S] and the orthonormality of [V]. *)
Lemma scales_from_eigen (sx sy s1 s2 v00 v01 v10 v11 : R) :
  0 < sx -> 0 < sy -> s2 <= s1 ->
  sx * v00 = v00 * s1 -> sx * v10 = v10 * s2 ->
  sy * v01 = v01 * s1 -> sy * v11 = v11 * s2 ->
  v00 * v00 + v01 * v01 = 1 -> v10 * v10 + v11 * v11 = 1 ->
  v00 * v00 + v10 * v10 = 1 -> v01 * v01 + v11 * v11 = 1 ->
  s1 = Rmax sx sy /\ s2 = Rmin sx sy /\ 0 < s1 /\ 0 < s2.
Proof.
  intros Hx Hy H12 F1 F2 F3 F4 R0 R1 C0 C1.
  destruct (Req_dec v00 0) as [Z0|Z0].
  - subst v00.
    assert (E1 : sy = s1) by (apply (cancel_nz _ _ v01); [apply unit_nz; lra|exact F3]).
    assert (E2 : sx = s2) by (apply (cancel_nz _ _ v10); [apply unit_nz; lra|exact F2]).
    subst. rewrite Rmax_right, Rmin_left by lra. lra.
  - assert (E1 : sx = s1) by (apply (cancel_nz _ _ v00); [exact Z0|exact F1]).
    subst s1.
    destruct (Req_dec v10 0) as [Z1|Z1].
    + subst v10.
      assert (E2 : sy = s2) by (apply (cancel_nz _ _ v11); [apply unit_nz; lra|exact F4]).
      subst. rewrite Rmax_left, Rmin_right by lra. lra.
    + assert (E2 : sx = s2) by (apply (cancel_nz _ _ v10); [exact Z1|exact F2]).
      subst s2.
      assert (Exy : sy = sx).
      { destruct (Req_dec v01 0) as [Z2|Z2].
        - subst v01. apply (cancel_nz _ _ v11); [apply unit_nz; lra|exact F4].
        - apply (cancel_nz _ _ v01); [exact Z2|exact F3]. }
      subst sy. rewrite Rmax_left, Rmin_left by lra. lra.
Qed.

Lemma mul_diag_cancel (X Y : mat2) (a b : R) :
  0 < a -> 0 < b -> mul2 X (diag2 a b) = mul2 Y (diag2 a b) -> X = Y.
Proof.
  intros Ha Hb E.
  assert (E00 := f_equal m00 E). assert (E01 := f_equal m01 E).
  assert (E10 := f_equal m10 E). assert (E11 := f_equal m11 E).
  unfold mul2, diag2 in *; simpl in *.
  apply mat2_eq.
  - apply (Rmult_eq_reg_r a); [lra|lra].
  - apply (Rmult_eq_reg_r b); [lra|lra].
  - apply (Rmult_eq_reg_r a); [lra|lra].
  - apply (Rmult_eq_reg_r b); [lra|lra].
Qed.

(** Any SVD of [rot theta * diag(sx, sy)] with [sx, sy > 0] has
    [U @ Vt = rot theta] and singular values [max(sx, sy) >= min(sx, sy)]. *)
Lemma svd_rot_diag (theta sx sy s1 s2 : R) (U Vt : mat2) :
  0 < sx -> 0 < sy ->
  svd_ok (mul2 (rot theta) (diag2 sx sy)) (Some (U, s1, s2, Vt)) ->
  mul2 U Vt = rot theta /\ s1 = Rmax sx sy /\ s2 = Rmin sx sy.
Proof.
  intros Hx Hy [[HU1 HU2] [[HV1 HV2] [H12 [H2 HA]]]].
  set (Rt := rot theta) in *. set (D := diag2 sx sy) in *. set (S := diag2 s1 s2) in *.
  (* the Gram matrix A^T A, once from [rot * D], once from the SVD *)
  assert (G1 : mul2 (tr2 (mul2 Rt D)) (mul2 Rt D) = diag2 (sx * sx) (sy * sy)).
  { pose proof (cos_sin_sq (theta * PI / 180)) as Hcs.
    subst Rt D. unfold rot, diag2, mul2, tr2; simpl.
    apply mat2_eq; simpl.
    - transitivity (sx * sx * (cos (theta * PI / 180) * cos (theta * PI / 180)
                              + sin (theta * PI / 180) * sin (theta * PI / 180)));
        [ring|rewrite Hcs; ring].
    - ring.
    - ring.
    - transitivity (sy * sy * (cos (theta * PI / 180) * cos (theta * PI / 180)
                              + sin (theta * PI / 180) * sin (theta * PI / 180)));
        [ring|rewrite Hcs; ring]. }
  assert (G2 : mul2 (tr2 (mul2 Rt D)) (mul2 Rt D)
               = mul2 (tr2 Vt) (mul2 (diag2 (s1 * s1) (s2 * s2)) Vt)).
  { rewrite HA. rewrite !tr2_mul, !mul2_assoc.
    rewrite <- (mul2_assoc (tr2 U) U), HU1, mul2_I_l.
    rewrite <- (mul2_assoc (tr2 S) S).
    replace (mul2 (tr2 S) S) with (diag2 (s1 * s1) (s2 * s2))
      by (apply mat2_eq; unfold S, mul2, tr2, diag2; simpl; ring).
    reflexivity. }
  (* D^2 V = V S^2 *)
  assert (G3 : mul2 (diag2 (sx * sx) (sy * sy)) (tr2 Vt)
               = mul2 (tr2 Vt) (diag2 (s1 * s1) (s2 * s2))).
  { rewrite <- G1, G2, !mul2_assoc, HV2, mul2_I_r. reflexivity. }
  destruct Vt as [v00 v01 v10 v11].
  assert (HV1' := HV1). assert (HV2' := HV2).
  unfold mul2, tr2, I2 in HV1', HV2'; simpl in HV1', HV2'.
  injection HV1' as C0 C01 C10 C1. injection HV2' as R0 R01 R10 R1.
  assert (E00 := f_equal m00 G3). assert (E01 := f_equal m01 G3).
  assert (E10 := f_equal m10 G3). assert (E11 := f_equal m11 G3).
  unfold mul2, diag2, tr2 in E00, E01, E10, E11; simpl in E00, E01, E10, E11.
  assert (F1 : sx * v00 = v00 * s1) by (apply sq_cancel; lra).
  assert (F2 : sx * v10 = v10 * s2) by (apply sq_cancel; lra).
  assert (F3 : sy * v01 = v01 * s1) by (apply sq_cancel; lra).
  assert (F4 : sy * v11 = v11 * s2) by (apply sq_cancel; lra).
  destruct (scales_from_eigen sx sy s1 s2 v00 v01 v10 v11 Hx Hy H12 F1 F2 F3 F4
              ltac:(lra) ltac:(lra) ltac:(lra) ltac:(lra)) as [Es1 [Es2 [Hs1 Hs2]]].
  set (Vt := mk2 v00 v01 v10 v11) in *.
  (* D V = V S, hence A V = (rot V) S = U S *)
  assert (DV : mul2 D (tr2 Vt) = mul2 (tr2 Vt) S).
  { apply mat2_eq; unfold D, S, Vt, mul2, diag2, tr2; simpl; lra. }
  assert (AV : mul2 (mul2 Rt D) (tr2 Vt) = mul2 U S).
  { rewrite HA, !mul2_assoc, HV2, mul2_I_r. reflexivity. }
  rewrite mul2_assoc, DV, <- mul2_assoc in AV.
  apply mul_diag_cancel in AV; [|exact Hs1|exact Hs2].
  split; [|split; assumption].
  rewrite <- AV, mul2_assoc, HV1, mul2_I_r. reflexivity.
Qed.

(** For an affine homography, [cv2.perspectiveTransform] is the affine map. *)
Lemma persp_affine (H : mat3) (x y : R) :
  affine H ->
  persp_point H x y = (h00 H * x + h01 H * y + h02 H, h10 H * x + h11 H * y + h12 H).
Proof.
  intros [A [B C]]. unfold persp_point. rewrite A, B, C.
  replace (0 * x + 0 * y + 1) with 1 by ring. rewrite Rabs_R1.
  destruct (Rlt_dec FLT_EPSILON 1) as [_|n].
  - rewrite !Rdiv_1_r. reflexivity.
  - exfalso. apply n. unfold FLT_EPSILON. lra.
Qed.

Lemma Rmin_abab (a b : R) : Rmin (Rmin (Rmin a b) a) b = Rmin a b.
Proof. unfold Rmin. repeat destruct (Rle_dec _ _); lra. Qed.

Lemma Rmax_abab (a b : R) : Rmax (Rmax (Rmax a b) a) b = Rmax a b.
Proof. unfold Rmax. repeat destruct (Rle_dec _ _); lra. Qed.

Lemma side_lengths_affine (H : mat3) (tw th : R) :
  affine H ->
  side_lengths H tw th =
  (sqrt (h00 H * (tw - 1) * (h00 H * (tw - 1)) + h10 H * (tw - 1) * (h10 H * (tw - 1))),
   sqrt (h01 H * (th - 1) * (h01 H * (th - 1)) + h11 H * (th - 1) * (h11 H * (th - 1))),
   sqrt (h00 H * (tw - 1) * (h00 H * (tw - 1)) + h10 H * (tw - 1) * (h10 H * (tw - 1))),
   sqrt (h01 H * (th - 1) * (h01 H * (th - 1)) + h11 H * (th - 1) * (h11 H * (th - 1)))).
Proof.
  intros Ha. unfold side_lengths. rewrite !(persp_affine H _ _ Ha). unfold dist; cbn [fst snd].
  f_equal; [f_equal; [f_equal|]|]; f_equal; ring.
Qed.

(** The perspective measure of an affine homography: opposite sides of the
    mapped template rectangle have equal lengths [L1] and [L2], and the
    measure is their ratio minus one, in percent. *)
Lemma measure_affine (H : mat3) (tw th : R) :
  affine H ->
  measure_perspective_from_template_to_image H tw th =
  (let L1 := sqrt (h00 H * (tw - 1) * (h00 H * (tw - 1)) + h10 H * (tw - 1) * (h10 H * (tw - 1))) in
   let L2 := sqrt (h01 H * (th - 1) * (h01 H * (th - 1)) + h11 H * (th - 1) * (h11 H * (th - 1))) in
   if Rle_dec (Rmin L1 L2) (1 / 1000000) then 0 else (Rmax L1 L2 / Rmin L1 L2 - 1) * 100).
Proof.
  intros Ha. unfold measure_perspective_from_template_to_image.
  rewrite (side_lengths_affine H tw th Ha). cbv beta iota zeta.
  rewrite Rmin_abab, Rmax_abab. reflexivity.
Qed.

(** Claim C6 (amended).  For an affine template-to-image homography the
    reported measure is [(max(L1, L2) / min(L1, L2) - 1) * 100] (0 when
    [min(L1, L2) <= 1e-6]), where [L1] and [L2] are the lengths of the
    images of the template's horizontal and vertical sides; and whenever
    either homography is missing the reported value is 0. *)
Theorem affine_perspective_is_aspect_ratio :
  (forall (Hi Ht : mat3), affine Ht ->
     reported_perspective_pct (Some Hi) (Some Ht) =
     (let L1 := sqrt (h00 Ht * 1699 * (h00 Ht * 1699) + h10 Ht * 1699 * (h10 Ht * 1699)) in
      let L2 := sqrt (h01 Ht * 2199 * (h01 Ht * 2199) + h11 Ht * 2199 * (h11 Ht * 2199)) in
      if Rle_dec (Rmin L1 L2) (1 / 1000000) then 0 else (Rmax L1 L2 / Rmin L1 L2 - 1) * 100))
  /\ (forall Ht, reported_perspective_pct None Ht = 0)
  /\ (forall Hi, reported_perspective_pct Hi None = 0).
Proof.
  split; [|split].
  - intros Hi Ht Ha. unfold reported_perspective_pct. rewrite (measure_affine Ht _ _ Ha).
    replace (1700 - 1) with 1699 by ring. replace (2200 - 1) with 2199 by ring.
    reflexivity.
  - intros Ht. reflexivity.
  - intros [Hi|]; reflexivity.
Qed.

(** Claim C6 (counterexample).  The identity homography is affine, yet the
    reported distortion is [(2199 / 1699 - 1) * 100], about 29.4, since
    the template rectangle itself is 1700 x 2200. *)
Theorem identity_homography_nonzero_pct :
  ~ (forall (Hi Ht : mat3), affine Ht -> reported_perspective_pct (Some Hi) (Some Ht) = 0).
Proof.
  intros Hall.
  assert (Ha : affine (mk3 1 0 0 0 1 0 0 0 1)) by (repeat split).
  specialize (Hall (mk3 1 0 0 0 1 0 0 0 1) _ Ha). unfold reported_perspective_pct in Hall.
  rewrite (measure_affine _ _ _ Ha) in Hall. cbv zeta in Hall.
  cbn [h00 h01 h10 h11] in Hall.
  replace (1 * (1700 - 1) * (1 * (1700 - 1)) + 0 * (1700 - 1) * (0 * (1700 - 1)))
    with (1699 * 1699) in Hall by ring.
  replace (0 * (2200 - 1) * (0 * (2200 - 1)) + 1 * (2200 - 1) * (1 * (2200 - 1)))
    with (2199 * 2199) in Hall by ring.
  rewrite !sqrt_square in Hall by lra.
  rewrite Rmin_left, Rmax_right in Hall by lra.
  destruct (Rle_dec 1699 (1 / 1000000)); lra.
Qed.

(** Claim C7.  On both the SVD path (whatever [np.linalg.svd] returns for
    the normalised linear part) and the exception path, the scales are
    non-negative and the rotation lies in (-180, 180]. *)
Theorem decompose_homography_ranges (H : mat3) (out : option (mat2 * R * R * mat2)) :
  out = None \/ svd_ok (linear_part (normalize H)) out ->
  let t := decompose_homography H out in
  0 <= scale_x t /\ 0 <= scale_y t /\ -180 < rotation_deg t <= 180.
Proof.
  intros Hout t. subst t. unfold decompose_homography. cbv zeta.
  destruct out as [[[[U s1] s2] Vt]|].
  - destruct Hout as [Hn|Hs]; [discriminate|].
    destruct Hs as [_ [_ [H12 [H2 _]]]].
    destruct (Rlt_dec (det2 (mul2 U Vt)) 0); cbn [rotation_deg scale_x scale_y];
      (split; [lra|split; [lra|apply degrees_range, atan2_range]]).
  - cbn [rotation_deg scale_x scale_y].
    split; [apply sqrt_pos|split; [apply sqrt_pos|apply degrees_range, atan2_range]].
Qed.

Lemma decompose_homography_ranges_witness :
  (@None (mat2 * R * R * mat2) = None
   \/ svd_ok (linear_part (normalize (mk3 1 0 0 0 1 0 0 0 1))) None)
  /\ (let t := decompose_homography (mk3 1 0 0 0 1 0 0 0 1) None in
      0 <= scale_x t /\ 0 <= scale_y t /\ -180 < rotation_deg t <= 180).
Proof.
  split; [left; reflexivity|].
  apply (decompose_homography_ranges (mk3 1 0 0 0 1 0 0 0 1) None).
  left; reflexivity.
Defined.

(** Claim C8 (amended).  For [rot theta * diag(sx, sy)] with [sx, sy > 0],
    [theta] in (-180, 180], any translation and bottom row [0, 0, 1], and
    any SVD that [np.linalg.svd] may return, [decompose_homography]
    recovers [theta] exactly, but [scale_x = max(sx, sy)] and
    [scale_y = min(sx, sy)]: the singular values come in decreasing order. *)
Theorem decompose_similarity (theta sx sy tx0 ty0 : R) (out : option (mat2 * R * R * mat2)) :
  -180 < theta <= 180 -> 0 < sx -> 0 < sy ->
  svd_ok (linear_part (normalize (similarity_homography theta sx sy tx0 ty0))) out ->
  let r := decompose_homography (similarity_homography theta sx sy tx0 ty0) out in
  rotation_deg r = theta /\ scale_x r = Rmax sx sy /\ scale_y r = Rmin sx sy.
Proof.
  intros Ht Hx Hy Hs r. subst r.
  destruct out as [[[[U s1] s2] Vt]|]; [|destruct Hs].
  rewrite linear_part_similarity in Hs.
  destruct (svd_rot_diag theta sx sy s1 s2 U Vt Hx Hy Hs) as [HUV [E1 E2]].
  unfold decompose_homography. cbv zeta. rewrite HUV.
  destruct (Rlt_dec (det2 (rot theta)) 0) as [Hd|_]; [rewrite det_rot in Hd; lra|].
  cbn [rotation_deg scale_x scale_y].
  split; [|split; assumption].
  pose proof PI_RGT_0 as Hpi.
  unfold rot; cbn [m10 m00].
  rewrite atan2_sin_cos.
  - unfold degrees. field. lra.
  - destruct Ht as [Ht1 Ht2]. split.
    + apply (Rmult_lt_reg_r (180 / PI)); [apply Rdiv_lt_0_compat; lra|].
      replace (theta * PI / 180 * (180 / PI)) with theta by (field; lra).
      replace (- PI * (180 / PI)) with (-180) by (field; lra). lra.
    + apply (Rmult_le_reg_r (180 / PI)); [apply Rdiv_lt_0_compat; lra|].
      replace (theta * PI / 180 * (180 / PI)) with theta by (field; lra).
      replace (PI * (180 / PI)) with 180 by (field; lra). lra.
Qed.

Lemma decompose_similarity_witness :
  (-180 < 0 <= 180 /\ 0 < 1 /\ 0 < 1
   /\ svd_ok (linear_part (normalize (similarity_homography 0 1 1 0 0))) (Some (I2, 1, 1, I2)))
  /\ (let r := decompose_homography (similarity_homography 0 1 1 0 0) (Some (I2, 1, 1, I2)) in
      rotation_deg r = 0 /\ scale_x r = Rmax 1 1 /\ scale_y r = Rmin 1 1).
Proof.
  assert (Hs : svd_ok (linear_part (normalize (similarity_homography 0 1 1 0 0)))
                 (Some (I2, 1, 1, I2))).
  { rewrite linear_part_similarity, rot_0. unfold svd_ok, orthogonal.
    repeat split; try lra; apply mat2_eq; unfold mul2, tr2, I2, diag2; simpl; ring. }
  split; [split; [split; lra|split; [lra|split; [lra|exact Hs]]]|].
  apply (decompose_similarity 0 1 1 0 0 (Some (I2, 1, 1, I2))); [lra|lra|lra|exact Hs].
Defined.

(** Claim C8 (counterexample).  With [theta = 0], [sx = 1], [sy = 2] the
    linear part is [diag(1, 2)]; [U = Vt = [[0, 1], [1, 0]]] with singular
    values [(2, 1)] is an SVD of it, and [decompose_homography] reports
    [scale_x = 2], 100% away from [sx = 1]. *)
Theorem similarity_scales_swapped :
  ~ (forall (theta sx sy tx0 ty0 : R) (out : option (mat2 * R * R * mat2)),
       -180 < theta <= 180 -> 0 < sx -> 0 < sy ->
       svd_ok (linear_part (normalize (similarity_homography theta sx sy tx0 ty0))) out ->
       let r := decompose_homography (similarity_homography theta sx sy tx0 ty0) out in
       Rabs (rotation_deg r - theta) <= 1 / 2
       /\ Rabs (scale_x r - sx) <= 2 / 100 * sx
       /\ Rabs (scale_y r - sy) <= 2 / 100 * sy).
Proof.
  intros Hall.
  set (P := mk2 0 1 1 0).
  assert (Hs : svd_ok (linear_part (normalize (similarity_homography 0 1 2 0 0)))
                 (Some (P, 2, 1, P))).
  { rewrite linear_part_similarity, rot_0. unfold svd_ok, orthogonal.
    repeat split; try lra; apply mat2_eq; unfold P, mul2, tr2, I2, diag2; simpl; ring. }
  specialize (Hall 0 1 2 0 0 (Some (P, 2, 1, P)) ltac:(lra) ltac:(lra) ltac:(lra) Hs).
  cbv zeta in Hall. destruct Hall as [_ [Hsx _]].
  unfold decompose_homography in Hsx. cbv zeta in Hsx.
  destruct (Rlt_dec (det2 (mul2 P P)) 0); cbn [scale_x] in Hsx;
    replace (2 - 1) with 1 in Hsx by ring; rewrite Rabs_R1 in Hsx; lra.
Qed.

End HomographyFacts.

(* ================================================================== *)
(** ** Further properties of the modelled functions *)
(* ================================================================== *)

Module FinalCropMore.

Import FinalCrop.
Open Scope Z_scope.

Lemma edges_bounds (n : Z) :
  0 <= n -> 0 <= lo_edge n <= n /\ 0 <= hi_edge n <= n.
Proof.
  intros Hn. unfold lo_edge, hi_edge.
  split; split; try (apply Z.div_pos; lia); apply Z.div_le_upper_bound; lia.
Qed.

Lemma above_threshold_nonneg (proj : list Q) :
  Forall (fun i => 0 <= i) (above_threshold proj).
Proof.
  unfold above_threshold. apply Forall_forall. intros i Hi.
  apply in_map_iff in Hi as [p [<- _]]. lia.
Qed.

Lemma first_last_nonneg (l : list Z) :
  Forall (fun i => 0 <= i) l -> 0 <= first_or 0 l /\ 0 <= last_or 0 l.
Proof.
  intros Hf. split.
  - destruct l as [|a l]; simpl; [lia|]. inversion Hf; assumption.
  - unfold last_or. induction l as [|a l IH]; simpl; [lia|].
    inversion Hf; subst. destruct l as [|b l']; [assumption|]. apply IH. assumption.
Qed.

(** A slice whose bounds lie in the inner frame stays in it. *)
Definition in_frame (H W : Z) (r : region) : Prop :=
  lo_edge H <= ry0 r /\ ry1 r <= hi_edge H /\ lo_edge W <= rx0 r /\ rx1 r <= hi_edge W.

Lemma slice_in_frame (H W y0 y1 x0 x1 : Z) :
  0 <= H -> 0 <= W ->
  lo_edge H <= y0 -> 0 <= y1 <= hi_edge H ->
  lo_edge W <= x0 -> 0 <= x1 <= hi_edge W ->
  in_frame H W (slice H W y0 y1 x0 x1).
Proof.
  intros HH HW Hy0 Hy1 Hx0 Hx1.
  destruct (edges_bounds H HH), (edges_bounds W HW).
  unfold in_frame, slice, norm_index; simpl.
  repeat match goal with |- context [?a <? 0] => destruct (Z.ltb_spec a 0) end; lia.
Qed.

(** X1.  Given a non-negative image size and pad and a paper box with
    non-negative coordinates, [final_hybrid_crop_after_deskew] returns
    either the whole image or a region inside the frame
    [int(0.01*H) .. int(0.99*H)] x [int(0.01*W) .. int(0.99*W)]: it never
    keeps the outer 1 % border on any side. *)
Theorem final_crop_full_or_in_frame (H W : Z) (hor ver : list Q)
    (b2 : option (Z * Z * Z * Z)) (pad : Z) :
  0 <= H -> 0 <= W -> 0 <= pad ->
  (forall x2 y2 w2 h2, b2 = Some (x2, y2, w2, h2) ->
     0 <= x2 /\ 0 <= y2 /\ 0 <= w2 /\ 0 <= h2) ->
  final_hybrid_crop_after_deskew H W hor ver b2 pad = slice H W 0 H 0 W
  \/ in_frame H W (final_hybrid_crop_after_deskew H W hor ver b2 pad).
Proof.
  intros HH HW Hp Hb.
  destruct (edges_bounds H HH) as [[HlH _] [HhH _]].
  destruct (edges_bounds W HW) as [[HlW _] [HhW _]].
  destruct (first_last_nonneg _ (above_threshold_nonneg hor)) as [Hr0 Hr1].
  destruct (first_last_nonneg _ (above_threshold_nonneg ver)) as [Hc0 Hc1].
  unfold final_hybrid_crop_after_deskew.
  destruct (above_threshold hor) as [|r rs], (above_threshold ver) as [|c cs];
    destruct b2 as [[[[x2 y2] w2] h2]|];
    try (left; reflexivity);
    try (destruct (Hb x2 y2 w2 h2 eq_refl) as [? [? [? ?]]]).
  - right. apply slice_in_frame; lia.
  - right. apply slice_in_frame; lia.
  - right. apply slice_in_frame; lia.
  - cbv zeta.
    match goal with |- context [if ?c then _ else _] => destruct c end.
    + match goal with |- context [if ?c then _ else _] => destruct c end;
        right; apply slice_in_frame; lia.
    + right. apply slice_in_frame; lia.
  - cbv zeta.
    match goal with |- context [if ?c then _ else _] => destruct c end;
      [left; reflexivity|right; apply slice_in_frame; lia].
Qed.

Lemma final_crop_full_or_in_frame_witness :
  (0 <= 2000 /\ 0 <= 2000 /\ 0 <= 10) /\
  (final_hybrid_crop_after_deskew 2000 2000 [] [] (Some (100, 100, 1500, 1500)) 10
     = slice 2000 2000 0 2000 0 2000
   \/ in_frame 2000 2000
        (final_hybrid_crop_after_deskew 2000 2000 [] [] (Some (100, 100, 1500, 1500)) 10)).
Proof.
  split; [lia|].
  apply final_crop_full_or_in_frame; try lia.
  intros x2 y2 w2 h2 E. injection E as <- <- <- <-. lia.
Defined.

End FinalCropMore.

Module RowsMore.

Import Rows RowsFacts.
Open Scope Z_scope.

(** A full-width box of width [W] inside the rows [0 .. H-1]. *)
Definition row_shape (H W : Z) (b : box) : Prop :=
  bx_x b = 0 /\ bx_w b = W /\ 0 <= bx_y b /\ bx_y b + bx_h b <= H - 1.

Lemma scan_step_shape (H W min_h y : Z) (st : scan_state) (a : bool) :
  Forall (row_shape H W) (segments st) ->
  Forall (row_shape H W) (segments (scan_step H W min_h st y a)).
Proof.
  intros Hf. destruct st as [ins y0 segs]. unfold scan_step; simpl in *.
  destruct (a && negb ins); [exact Hf|].
  destruct ((negb a || (y =? H - 1)) && ins); [|exact Hf].
  destruct (min_h <=? y - y0); simpl; [|exact Hf].
  apply Forall_app. split; [exact Hf|]. constructor; [|constructor].
  unfold row_shape; simpl. lia.
Qed.

Lemma scan_shape (H W min_h : Z) (ab : list bool) :
  forall y st, Forall (row_shape H W) (segments st) ->
  Forall (row_shape H W) (segments (scan H W min_h st y ab)).
Proof.
  induction ab as [|a ab IH]; intros y st Hf; simpl; [exact Hf|].
  apply IH, scan_step_shape, Hf.
Qed.

Lemma merge_from_shape (H W : Z) (rest : list box) :
  forall cur, row_shape H W cur -> Forall (row_shape H W) rest ->
  Forall (row_shape H W) (merge_from cur rest).
Proof.
  induction rest as [|s rest IH]; intros cur Hc Hf; simpl; [constructor; [exact Hc|constructor]|].
  destruct cur as [[[px py] pw] ph].
  inversion Hf as [|? ? Hs Hr]; subst.
  destruct (bx_y s <=? py + ph + 12).
  - apply IH; [|exact Hr]. unfold row_shape in *; simpl in *. lia.
  - constructor; [exact Hc|]. apply IH; assumption.
Qed.

(** X2.  Every row returned by [split_rows] spans the full width
    ([x = 0], [w = W]), has a positive height and lies inside the image
    rows: [0 <= y] and [y + h <= H - 1], so the last pixel row [H - 1] is
    never part of a row. *)
Theorem split_rows_row_shape (proj : list Z) (W : Z) (frac : Q) :
  Forall (fun b => bx_x b = 0 /\ bx_w b = W /\ 0 <= bx_y b /\ 0 < bx_h b
                   /\ bx_y b + bx_h b <= Z.of_nat (length proj) - 1)
    (split_rows proj W frac).
Proof.
  unfold split_rows.
  set (H := Z.of_nat (length proj)).
  assert (Hm : Forall (row_shape H W)
    (merge_segments (segments (scan H W (Z.max 40 (H / 40)) (mk_scan false 0 []) 0
       (map (fun p => Confidence.Qltb (mean proj * (4 # 10))%Q (inject_Z p)) proj))))).
  { match goal with |- Forall _ (merge_segments ?l) =>
      assert (Hl : Forall (row_shape H W) l) by (apply scan_shape; constructor);
      destruct l as [|s rest]; simpl; [constructor|] end.
    inversion Hl; subst. apply merge_from_shape; assumption. }
  apply cut_rows_forall. intros b b' Hin E.
  rewrite Forall_forall in Hm. specialize (Hm b Hin).
  pose proof (cut_row_spec _ _ _ E) as [_ [Hy [Hh Hbot]]].
  destruct b as [[[x y] w] h]. unfold cut_row in E.
  destruct (_ && _); [|discriminate]. injection E as <-.
  unfold row_shape in Hm. simpl in *. lia.
Qed.

Lemma min_cand_in (best : Q * box) (l : list (Q * box)) :
  min_cand best l = best \/ In (min_cand best l) l.
Proof.
  revert best. induction l as [|c l IH]; intros best; simpl; [left; reflexivity|].
  destruct (Confidence.Qltb (fst c) (fst best)).
  - destruct (IH c) as [E|E]; right; [left; symmetry; exact E|right; exact E].
  - destruct (IH best) as [E|E]; [left; exact E|right; right; exact E].
Qed.

Definition squarish (b : box) : Prop :=
  12 <= bx_w b <= 200 /\ 12 <= bx_h b <= 200
  /\ (75 # 100 <= inject_Z (bx_w b) / inject_Z (bx_h b) <= 125 # 100)%Q.

Lemma in_map_filter_snd (f : box -> Q * box) (g : box -> bool) (l : list box) (p : Q * box) :
  (forall r, snd (f r) = r) -> In p (map f (filter g l)) -> g (snd p) = true.
Proof.
  intros Hf Hp. apply in_map_iff in Hp as [r [<- Hr]].
  apply filter_In in Hr as [_ Hr]. rewrite Hf. exact Hr.
Qed.

Lemma answer_box_squarish cr (band : box) (y h ry : Z) (a : box) :
  answer_box cr band y h ry = Some a -> squarish a.
Proof.
  destruct band as [[[bx by_] bw] bh]. unfold answer_box.
  destruct (map _ (filter _ _)) as [|c cs] eqn:E; [discriminate|].
  assert (Hin : In (min_cand c cs) (c :: cs)).
  { destruct (min_cand_in c cs) as [E'|E']; [rewrite E'; left; reflexivity|right; exact E']. }
  rewrite <- E in Hin. apply in_map_filter_snd in Hin;
    [|intros [[[X Y] Wr] Hr]; reflexivity].
  destruct (snd (min_cand c cs)) as [[[X Y] Wr] Hr].
  intros Ea. injection Ea as <-. simpl in Hin.
  repeat rewrite andb_true_iff in Hin.
  destruct Hin as [[[[[H1 H2] H3] H4] H5] H6].
  apply Qle_bool_iff in H1. apply Qle_bool_iff in H2.
  apply Z.leb_le in H3. apply Z.leb_le in H4. apply Z.leb_le in H5. apply Z.leb_le in H6.
  unfold squarish; simpl. repeat split; assumption.
Qed.

(** X3.  In [attach_answer_boxes], for every contour detector: a row is
    typed [mcq] with confidence 0.86 exactly when its centre
    [y + h // 2] lies in the band's vertical span [by .. by + bh], and is
    otherwise [text] with confidence 0.72 and no answer box; every answer
    box found is 12 to 200 pixels wide and high with aspect ratio
    (width / height) in [0.75, 1.25]. *)
Theorem attach_answer_boxes_rows (cr : Z -> Z -> list box) (rows : list box) (band : box) :
  Forall (fun r =>
    let '(x, y, w, h) := row_bbox r in
    let '(bx, by_, bw, bh) := band in
    (typ r = mcq <-> by_ <= y + h / 2 <= by_ + bh)
    /\ row_confidence r = (if typ r then 86 # 100 else 72 # 100)%Q
    /\ (typ r = text -> answer_box_bbox r = None)
    /\ (forall a, answer_box_bbox r = Some a -> squarish a))
    (attach_answer_boxes cr rows band).
Proof.
  unfold attach_answer_boxes. generalize 1%nat. generalize (sort_by_y rows) as l.
  destruct band as [[[bx by_] bw] bh].
  induction l as [|[[[x y] w] h] l IH]; intros qid; cbn [attach_from]; [constructor|].
  constructor; [|apply IH].
  destruct (by_ <=? y + h / 2) eqn:E1, (y + h / 2 <=? by_ + bh) eqn:E2;
    cbn [andb row_bbox typ row_confidence answer_box_bbox].
  - apply Z.leb_le in E1, E2.
    refine (conj (conj (fun _ => conj E1 E2) (fun _ => eq_refl)) (conj eq_refl (conj _ _))).
    + intros E. discriminate.
    + intros a Ha. exact (answer_box_squarish cr _ _ _ _ _ Ha).
  - apply Z.leb_gt in E2.
    refine (conj (conj _ _) (conj eq_refl (conj (fun _ => eq_refl) _))).
    + intros E. discriminate.
    + intros Hb. lia.
    + intros a Ha. discriminate.
  - apply Z.leb_gt in E1.
    refine (conj (conj _ _) (conj eq_refl (conj (fun _ => eq_refl) _))).
    + intros E. discriminate.
    + intros Hb. lia.
    + intros a Ha. discriminate.
  - apply Z.leb_gt in E1.
    refine (conj (conj _ _) (conj eq_refl (conj (fun _ => eq_refl) _))).
    + intros E. discriminate.
    + intros Hb. lia.
    + intros a Ha. discriminate.
Qed.

End RowsMore.

Module ManualCheckMore.

Import Confidence ManualCheck ManualCheckFacts.
Open Scope Z_scope.

(** Every row of the image has [img_width] pixels, as in a numpy array. *)
Definition rectangular (img : image) : Prop :=
  Forall (fun r => Z.of_nat (length r) = img_width img) img.

Lemma In_firstn_skipn {A} (n m : nat) (l : list A) (a : A) :
  In a (firstn n (skipn m l)) -> In a l.
Proof.
  intros H. rewrite <- (firstn_skipn m l). apply in_or_app. right.
  rewrite <- (firstn_skipn n (skipn m l)). apply in_or_app. left. exact H.
Qed.

Lemma slice2d_dims (img : image) (y h x w : Z) :
  rectangular img -> 0 <= y -> 0 <= h -> y + h <= Z.of_nat (length img) ->
  0 <= x -> 0 <= w -> x + w <= img_width img ->
  Z.of_nat (length (slice2d img y h x w)) = h
  /\ Forall (fun r => Z.of_nat (length r) = w) (slice2d img y h x w).
Proof.
  intros Hr Hy Hh Hyh Hx Hw Hxw. unfold slice2d. split.
  - rewrite length_map, length_firstn, length_skipn. lia.
  - apply Forall_forall. intros r Hin. apply in_map_iff in Hin as [r0 [<- Hin]].
    assert (Hr0 : In r0 img) by exact (In_firstn_skipn _ _ _ _ Hin).
    unfold rectangular in Hr. rewrite Forall_forall in Hr. specialize (Hr r0 Hr0).
    rewrite length_firstn, length_skipn. lia.
Qed.

Lemma nth_map_nil (f : list Z -> list Z) (l : image) (i : nat) :
  f [] = [] -> nth i (map f l) [] = f (nth i l []).
Proof.
  intros Hf. revert i. induction l as [|a l IH]; intros [|i]; simpl; auto.
Qed.

Lemma slice2d_nth (img : image) (y h x w i j : Z) :
  0 <= y -> 0 <= x -> 0 <= i < h -> 0 <= j < w ->
  nth (Z.to_nat j) (nth (Z.to_nat i) (slice2d img y h x w) []) 0
  = nth (Z.to_nat (x + j)) (nth (Z.to_nat (y + i)) img []) 0.
Proof.
  intros Hy Hx Hi Hj. unfold slice2d.
  rewrite nth_map_nil by (destruct (Z.to_nat x), (Z.to_nat w); reflexivity).
  rewrite nth_firstn, nth_skipn, nth_firstn, nth_skipn.
  rewrite (proj2 (Nat.ltb_lt (Z.to_nat i) (Z.to_nat h))) by lia.
  rewrite (proj2 (Nat.ltb_lt (Z.to_nat j) (Z.to_nat w))) by lia.
  rewrite !Z2Nat.inj_add by lia. reflexivity.
Qed.

(** X4.  On a rectangular image, [crop_bbox_from_template_coords] returns
    the window with top-left corner [(max(0, x - pad), max(0, y - pad))]
    and size [min(w + 2 pad, W - x')] by [min(h + 2 pad, H - y')]: a crop
    with exactly that many rows and columns whose pixel [(i, j)] is the
    image pixel [(y' + i, x' + j)], when both sizes are positive, and
    [None] otherwise.  A box sticking out on the left or top is shifted
    into the image, not shrunk. *)
Theorem crop_bbox_window (warped : image) (b : bbox) (pad : Z) :
  rectangular warped ->
  let x := Z.max 0 (bbox_x b - pad) in
  let y := Z.max 0 (bbox_y b - pad) in
  let w := Z.min (bbox_width b + 2 * pad) (img_width warped - x) in
  let h := Z.min (bbox_height b + 2 * pad) (Z.of_nat (length warped) - y) in
  match crop_bbox_from_template_coords warped b pad with
  | None => w <= 0 \/ h <= 0
  | Some c =>
      0 < w /\ 0 < h /\ Z.of_nat (length c) = h
      /\ Forall (fun r => Z.of_nat (length r) = w) c
      /\ (forall i j, 0 <= i < h -> 0 <= j < w ->
            nth (Z.to_nat j) (nth (Z.to_nat i) c []) 0
            = nth (Z.to_nat (x + j)) (nth (Z.to_nat (y + i)) warped []) 0)
  end.
Proof.
  intros Hr x y w h. unfold crop_bbox_from_template_coords. cbv zeta.
  fold x y.
  assert (Ew : (if img_width warped <? x + (bbox_width b + 2 * pad)
                then img_width warped - x else bbox_width b + 2 * pad) = w).
  { subst w. destruct (Z.ltb_spec (img_width warped) (x + (bbox_width b + 2 * pad))); lia. }
  assert (Eh : (if Z.of_nat (length warped) <? y + (bbox_height b + 2 * pad)
                then Z.of_nat (length warped) - y else bbox_height b + 2 * pad) = h).
  { subst h. destruct (Z.ltb_spec (Z.of_nat (length warped)) (y + (bbox_height b + 2 * pad)));
      lia. }
  rewrite Ew, Eh.
  destruct ((w <=? 0) || (h <=? 0)) eqn:E.
  - apply orb_true_iff in E as [E|E]; apply Z.leb_le in E; [left|right]; exact E.
  - apply orb_false_iff in E as [E1 E2]. apply Z.leb_gt in E1, E2.
    assert (Hx : 0 <= x) by lia. assert (Hy : 0 <= y) by lia.
    destruct (slice2d_dims warped y h x w Hr) as [Hl Hf]; try lia.
    refine (conj E1 (conj E2 (conj Hl (conj Hf _)))).
    intros i j Hi Hj. apply slice2d_nth; assumption.
Qed.

Lemma crop_bbox_window_witness :
  rectangular [[1; 2; 3]; [4; 5; 6]] /\
  (let b := mk_bbox 0 0 1 1 in
   let x := Z.max 0 (bbox_x b - 1) in
   let y := Z.max 0 (bbox_y b - 1) in
   let w := Z.min (bbox_width b + 2 * 1) (img_width [[1; 2; 3]; [4; 5; 6]] - x) in
   let h := Z.min (bbox_height b + 2 * 1) (Z.of_nat (length [[1; 2; 3]; [4; 5; 6]]) - y) in
   match crop_bbox_from_template_coords [[1; 2; 3]; [4; 5; 6]] b 1 with
   | None => w <= 0 \/ h <= 0
   | Some c =>
       0 < w /\ 0 < h /\ Z.of_nat (length c) = h
       /\ Forall (fun r => Z.of_nat (length r) = w) c
       /\ (forall i j, 0 <= i < h -> 0 <= j < w ->
             nth (Z.to_nat j) (nth (Z.to_nat i) c []) 0
             = nth (Z.to_nat (x + j)) (nth (Z.to_nat (y + i)) [[1; 2; 3]; [4; 5; 6]] []) 0)
   end).
Proof.
  assert (Hr : rectangular [[1; 2; 3]; [4; 5; 6]]).
  { unfold rectangular. repeat constructor. }
  split; [exact Hr|]. exact (crop_bbox_window [[1; 2; 3]; [4; 5; 6]] (mk_bbox 0 0 1 1) 1 Hr).
Defined.

Lemma length_filter_mono (f g : Z -> bool) (l : list Z) :
  (forall v, f v = true -> g v = true) ->
  (length (filter f l) <= length (filter g l))%nat.
Proof.
  intros Hfg. induction l as [|v l IH]; simpl; [lia|].
  destruct (f v) eqn:E; [rewrite (Hfg v E); simpl; lia|].
  destruct (g v); simpl; lia.
Qed.

(** X5.  [is_mostly_blank] is monotone: a crop that is mostly blank for a
    white threshold and a fraction stays mostly blank for any lower
    threshold and any lower fraction. *)
Theorem is_mostly_blank_mono (g : image) (t t' : Z) (pct pct' : Q) :
  t' <= t -> (pct' <= pct)%Q ->
  is_mostly_blank (Some g) t pct = true -> is_mostly_blank (Some g) t' pct' = true.
Proof.
  intros Ht Hp. unfold is_mostly_blank. cbv zeta. rewrite !Qle_bool_iff. intros Hb.
  apply (Qle_trans _ _ _ Hp). apply (Qle_trans _ _ _ Hb).
  unfold Qdiv. apply Qmult_le_compat_r.
  - assert (Hn : (length (filter (fun v => (t <=? v)%Z) (pixels g))
                  <= length (filter (fun v => (t' <=? v)%Z) (pixels g)))%nat).
    { apply length_filter_mono. intros v Hv. apply Z.leb_le in Hv. apply Z.leb_le. lia. }
    unfold Qle; simpl. lia.
  - apply Qinv_le_0_compat. unfold Qle; simpl. lia.
Qed.

Lemma is_mostly_blank_mono_witness :
  (245 <= 250 /\ (98 # 100 <= 99 # 100)%Q /\
   is_mostly_blank (Some [[250; 255]]) 250 (99 # 100) = true) /\
  is_mostly_blank (Some [[250; 255]]) 245 (98 # 100) = true.
Proof.
  assert (H1 : 245 <= 250) by lia.
  assert (H2 : (98 # 100 <= 99 # 100)%Q) by (unfold Qle; simpl; lia).
  assert (H3 : is_mostly_blank (Some [[250; 255]]) 250 (99 # 100) = true) by reflexivity.
  split; [split; [exact H1|split; [exact H2|exact H3]]|].
  exact (is_mostly_blank_mono [[250; 255]] 250 245 (99 # 100) (98 # 100) H1 H2 H3).
Defined.

(** X6.  Edge cases of [is_mostly_blank]: a missing crop ([None]) is
    blank; a crop with no pixels is not blank for any positive fraction
    (numpy's [0 / 0] is [nan], and [nan >= pct] is false); a crop with at
    least one pixel, all of them at or above the threshold, is blank for
    every fraction up to 1. *)
Theorem is_mostly_blank_edges (t : Z) (pct : Q) :
  is_mostly_blank None t pct = true
  /\ (forall g, pixels g = [] -> (0 < pct)%Q -> is_mostly_blank (Some g) t pct = false)
  /\ (forall g, pixels g <> [] -> Forall (fun v => t <= v) (pixels g) -> (pct <= 1)%Q ->
       is_mostly_blank (Some g) t pct = true).
Proof.
  split; [reflexivity|split].
  - intros g Hg Hp. unfold is_mostly_blank. rewrite Hg. simpl.
    destruct (Qle_bool _ _) eqn:E; [|reflexivity].
    apply Qle_bool_iff in E. exfalso. apply (Qlt_not_le _ _ Hp). exact E.
  - intros g Hne Hall Hp. unfold is_mostly_blank. cbv zeta. apply Qle_bool_iff.
    assert (Hf : filter (fun v => t <=? v) (pixels g) = pixels g).
    { induction (pixels g) as [|v l IH]; [reflexivity|].
      inversion Hall; subst. simpl. rewrite (proj2 (Z.leb_le t v) H1).
      destruct l as [|u l']; [reflexivity|]. f_equal. apply IH; [discriminate|assumption]. }
    rewrite Hf.
    assert (Hn : 0 < Z.of_nat (length (pixels g))).
    { destruct (pixels g); [contradiction|simpl; lia]. }
    assert (Hnz : ~ inject_Z (Z.of_nat (length (pixels g))) == 0).
    { intros E. unfold Qeq in E. simpl in E. lia. }
    unfold Qdiv. rewrite (Qmult_inv_r _ Hnz). exact Hp.
Qed.

Lemma filter_blank_heuristics (m : metrics) :
  filter is_mostly_blank_crop_reason (manual_check_heuristics m) = [].
Proof.
  pose proof (heuristics_no_blank_reason m) as H.
  induction (manual_check_heuristics m) as [|r l IH]; [reflexivity|].
  simpl in *. apply orb_false_iff in H as [H1 H2]. rewrite H1. apply IH, H2.
Qed.

(** X7.  The crop loop of [process_single_image] keeps the heuristic
    reasons first, in their order, and appends [mostly_blank_crop] once at
    the end when some crop is mostly blank, however many crops are blank:
    the reasons never hold [mostly_blank_crop] twice. *)
Theorem manual_reasons_layout (m : metrics) (warped : image) (df : list bbox) :
  snd (process_single_image_manual m warped df)
  = manual_check_heuristics m
    ++ (if existsb (fun b => match crop_bbox_from_template_coords warped b 8 with
                             | None => false
                             | Some g => is_mostly_blank (Some g) 245 (98 # 100) end) df
        then [mostly_blank_crop] else [])
  /\ (length (filter is_mostly_blank_crop_reason
                (snd (process_single_image_manual m warped df))) <= 1)%nat.
Proof.
  unfold process_single_image_manual.
  rewrite (crop_loop warped df _ _ (heuristics_no_blank_reason m)).
  destruct (existsb _ df); simpl.
  - split; [reflexivity|]. rewrite filter_app, filter_blank_heuristics. simpl. lia.
  - split; [rewrite app_nil_r; reflexivity|]. rewrite filter_blank_heuristics. simpl. lia.
Qed.

End ManualCheckMore.

Module AnswerBandFacts.

Import Rows AnswerBand.
Open Scope Z_scope.

Lemma fold_max_ge (l : list Z) : forall a, a <= fold_left Z.max l a /\ Forall (fun b => b <= fold_left Z.max l a) l.
Proof.
  induction l as [|b l IH]; intros a; simpl; [split; [lia|constructor]|].
  destruct (IH (Z.max a b)) as [H1 H2]. split; [lia|]. constructor; [lia|exact H2].
Qed.

Lemma fold_min_le (l : list Z) : forall a, fold_left Z.min l a <= a /\ Forall (fun b => fold_left Z.min l a <= b) l.
Proof.
  induction l as [|b l IH]; intros a; simpl; [split; [lia|constructor]|].
  destruct (IH (Z.min a b)) as [H1 H2]. split; [lia|]. constructor; [lia|exact H2].
Qed.

Lemma fold_max_in (l : list Z) : forall a, In (fold_left Z.max l a) (a :: l).
Proof.
  induction l as [|b l IH]; intros a; simpl; [left; reflexivity|].
  destruct (IH (Z.max a b)) as [E|E]; rewrite <- E || idtac.
  - destruct (Z.max_spec a b) as [[_ M]|[_ M]]; rewrite M; auto.
  - right; right; exact E.
Qed.

Lemma fold_min_in (l : list Z) : forall a, In (fold_left Z.min l a) (a :: l).
Proof.
  induction l as [|b l IH]; intros a; simpl; [left; reflexivity|].
  destruct (IH (Z.min a b)) as [E|E]; rewrite <- E || idtac.
  - destruct (Z.min_spec a b) as [[_ M]|[_ M]]; rewrite M; auto.
  - right; right; exact E.
Qed.

Lemma div100_sum (W a b : Z) :
  0 <= W -> 0 <= a -> 0 <= b -> a + b <= 100 -> (a * W) / 100 + (b * W) / 100 <= W
  /\ 0 <= (a * W) / 100 /\ 0 <= (b * W) / 100.
Proof.
  intros HW Ha Hb Hab.
  pose proof (Z.div_mod (a * W) 100 ltac:(lia)) as E1.
  pose proof (Z.div_mod (b * W) 100 ltac:(lia)) as E2.
  pose proof (Z.mod_pos_bound (a * W) 100 ltac:(lia)).
  pose proof (Z.mod_pos_bound (b * W) 100 ltac:(lia)).
  nia.
Qed.

(** A bounding rectangle of a contour of an [H x W] image. *)
Definition in_image (W H : Z) (b : box) : Prop :=
  0 <= bx_x b /\ 0 <= bx_y b /\ 0 < bx_w b /\ 0 < bx_h b
  /\ bx_x b + bx_w b <= W /\ bx_y b + bx_h b <= H.

(** X8.  When every contour's bounding rectangle lies in the [H x W]
    image, [find_answer_band] returns a box [(x, y, w, h)] inside the image
    ([0 <= x], [0 <= y], [0 <= w], [0 <= h], [x + w <= W],
    [y + h <= H]), and every contour kept as an answer square has its
    left edge in [x .. x + w], its top at or below [y] and its last pixel
    row at or above [y + h]. *)
Theorem find_answer_band_in_image (W H : Z) (cnts : list contour) :
  0 <= W -> 0 <= H ->
  (forall c, In c cnts -> in_image W H (rect c)) ->
  let '(bx, by_, bw, bh) := find_answer_band W H cnts in
  0 <= bx /\ 0 <= by_ /\ 0 <= bw /\ 0 <= bh /\ bx + bw <= W /\ by_ + bh <= H
  /\ (forall c, In c cnts -> is_square W H c = true ->
        bx <= bx_x (rect c) <= bx + bw /\ by_ <= bx_y (rect c)
        /\ bx_y (rect c) + bx_h (rect c) - 1 <= by_ + bh).
Proof.
  intros HW HH Hin. unfold find_answer_band.
  assert (Hsq : forall c, In c cnts -> is_square W H c = true ->
                In (rect c) (map rect (filter (is_square W H) cnts))).
  { intros c Hc Hs. apply in_map. apply filter_In. auto. }
  assert (Hall : forall b, In b (map rect (filter (is_square W H) cnts)) -> in_image W H b).
  { intros b Hb. apply in_map_iff in Hb as [c [<- Hc]]. apply filter_In in Hc as [Hc _].
    apply Hin, Hc. }
  destruct (map rect (filter (is_square W H) cnts)) as [|s ss] eqn:E.
  - destruct (div100_sum W 72 26) as [? [? ?]]; try lia.
    destruct (div100_sum H 15 73) as [? [? ?]]; try lia.
    refine (conj _ (conj _ (conj _ (conj _ (conj _ (conj _ _)))))); try lia.
    intros c Hc Hs. destruct (Hsq c Hc Hs).
  - cbv zeta.
    set (Mx := fold_left Z.max (map bx_x ss) (bx_x s)).
    set (mx := fold_left Z.min (map bx_x ss) (bx_x s)).
    set (my := fold_left Z.min (map bx_y ss) (bx_y s)).
    set (MB := fold_left Z.max (map (fun b => bx_y b + bx_h b) ss) (bx_y s + bx_h s)).
    assert (HMx : In Mx (map bx_x (s :: ss))) by apply fold_max_in.
    assert (Hmx : In mx (map bx_x (s :: ss))) by apply fold_min_in.
    assert (Hmy : In my (map bx_y (s :: ss))) by apply fold_min_in.
    assert (HMB : In MB (map (fun b => bx_y b + bx_h b) (s :: ss))) by apply fold_max_in.
    apply in_map_iff in HMx as [b1 [E1 I1]], Hmx as [b2 [E2 I2]], Hmy as [b3 [E3 I3]],
      HMB as [b4 [E4 I4]].
    destruct (Hall b1 I1) as [? [? [? [? [? ?]]]]].
    destruct (Hall b2 I2) as [? [? [? [? [? ?]]]]].
    destruct (Hall b3 I3) as [? [? [? [? [? ?]]]]].
    destruct (Hall b4 I4) as [? [? [? [? [? ?]]]]].
    assert (Hge : forall b, In b (s :: ss) ->
              mx <= bx_x b <= Mx /\ my <= bx_y b /\ bx_y b + bx_h b <= MB).
    { intros b Hb. destruct (fold_max_ge (map bx_x ss) (bx_x s)) as [A1 A2].
      destruct (fold_min_le (map bx_x ss) (bx_x s)) as [B1 B2].
      destruct (fold_min_le (map bx_y ss) (bx_y s)) as [C1 C2].
      destruct (fold_max_ge (map (fun b => bx_y b + bx_h b) ss) (bx_y s + bx_h s)) as [D1 D2].
      rewrite Forall_forall in A2, B2, C2, D2.
      destruct Hb as [<-|Hb]; [subst Mx mx my MB; lia|].
      specialize (A2 _ (in_map bx_x _ _ Hb)). specialize (B2 _ (in_map bx_x _ _ Hb)).
      specialize (C2 _ (in_map bx_y _ _ Hb)).
      specialize (D2 _ (in_map (fun b => bx_y b + bx_h b) _ _ Hb)).
      subst Mx mx my MB; lia. }
    destruct (Hge b1 I1) as [? [? ?]], (Hge b2 I2) as [? [? ?]],
      (Hge b3 I3) as [? [? ?]], (Hge b4 I4) as [? [? ?]].
    refine (conj _ (conj _ (conj _ (conj _ (conj _ (conj _ _)))))); try lia.
    intros c Hc Hs. pose proof (Hsq c Hc Hs) as Hr.
    destruct (Hge _ Hr) as [? [? ?]]. destruct (Hall _ Hr) as [? [? [? [? [? ?]]]]].
    lia.
Qed.

Lemma find_answer_band_in_image_witness :
  (0 <= 1000 /\ 0 <= 1000 /\
   (forall c, In c [mk_contour (800, 300, 20, 20) 4] -> in_image 1000 1000 (rect c))) /\
  (let '(bx, by_, bw, bh) := find_answer_band 1000 1000 [mk_contour (800, 300, 20, 20) 4] in
   0 <= bx /\ 0 <= by_ /\ 0 <= bw /\ 0 <= bh /\ bx + bw <= 1000 /\ by_ + bh <= 1000
   /\ (forall c, In c [mk_contour (800, 300, 20, 20) 4] -> is_square 1000 1000 c = true ->
         bx <= bx_x (rect c) <= bx + bw /\ by_ <= bx_y (rect c)
         /\ bx_y (rect c) + bx_h (rect c) - 1 <= by_ + bh)).
Proof.
  assert (Hc : forall c, In c [mk_contour (800, 300, 20, 20) 4] -> in_image 1000 1000 (rect c)).
  { intros c [<-|[]]. unfold in_image; simpl. lia. }
  split; [split; [lia|split; [lia|exact Hc]]|].
  exact (find_answer_band_in_image 1000 1000 _ ltac:(lia) ltac:(lia) Hc).
Defined.

End AnswerBandFacts.

Module OrientationFacts.

Import Orientation.
Open Scope Z_scope.

Section Dims.

Context {A : Type} (d : A).

Lemma width_nonneg (img : list (list A)) : 0 <= width img.
Proof. destruct img; simpl; lia. Qed.

Lemma rotate_90_ccw_dims (img : list (list A)) :
  rectangular img ->
  rectangular (rotate_90_ccw d img)
  /\ height (rotate_90_ccw d img) = width img
  /\ (0 < width img -> width (rotate_90_ccw d img) = height img).
Proof.
  intros Hr. unfold rotate_90_ccw.
  assert (Hrow : forall j, Z.of_nat (length (map (fun r => nth j r d) img)) = height img).
  { intros j. rewrite length_map. reflexivity. }
  assert (Hw : 0 < width img ->
               width (map (fun j => map (fun r => nth j r d) img)
                        (rev (seq 0 (Z.to_nat (width img))))) = height img).
  { intros Hp. destruct (rev (seq 0 (Z.to_nat (width img)))) as [|j js] eqn:E.
    - apply (f_equal (@length nat)) in E. rewrite length_rev, length_seq in E. simpl in E. lia.
    - simpl. apply Hrow. }
  split; [|split].
  - unfold rectangular. apply Forall_forall. intros row Hin.
    apply in_map_iff in Hin as [j [<- Hj]].
    rewrite Hrow. symmetry. apply Hw.
    apply in_rev in Hj. apply in_seq in Hj. lia.
  - unfold height at 1. rewrite length_map, length_rev, length_seq.
    pose proof (width_nonneg img). lia.
  - exact Hw.
Qed.

Lemma rotate_180_dims (img : list (list A)) :
  rectangular img ->
  rectangular (rotate_180 img)
  /\ height (rotate_180 img) = height img /\ width (rotate_180 img) = width img.
Proof.
  intros Hr. unfold rotate_180.
  assert (Hw : width (rev (map (@rev A) img)) = width img).
  { destruct img as [|r rs] eqn:E; [reflexivity|].
    rewrite <- E. unfold rectangular in Hr. rewrite Forall_forall in Hr.
    destruct (rev (map (@rev A) img)) as [|r' rs'] eqn:E'.
    - apply (f_equal (@length (list A))) in E'. rewrite length_rev, length_map, E in E'.
      discriminate.
    - simpl. assert (Hin : In r' (rev (map (@rev A) img))) by (rewrite E'; left; reflexivity).
      apply in_rev in Hin. apply in_map_iff in Hin as [r0 [<- Hr0]].
      rewrite length_rev. rewrite <- E in Hr. apply Hr, Hr0. }
  split; [|split; [|exact Hw]].
  - unfold rectangular. rewrite Hw. apply Forall_forall. intros row Hin.
    apply in_rev in Hin. apply in_map_iff in Hin as [r0 [<- Hr0]].
    rewrite length_rev. unfold rectangular in Hr. rewrite Forall_forall in Hr. apply Hr, Hr0.
  - unfold height. rewrite length_rev, length_map. reflexivity.
Qed.

End Dims.

(** X9.  For a rectangular image, [ensure_portrait] returns a rectangular
    image at least as tall as it is wide, with as many pixels as the
    input (a landscape image is turned by 90 degrees, swapping its height
    and width). *)
Theorem ensure_portrait_portrait {A : Type} (d : A) (img : list (list A)) :
  rectangular img ->
  rectangular (ensure_portrait d img)
  /\ width (ensure_portrait d img) <= height (ensure_portrait d img)
  /\ height (ensure_portrait d img) * width (ensure_portrait d img) = height img * width img.
Proof.
  intros Hr. unfold ensure_portrait.
  destruct (Z.ltb_spec (height img) (width img)) as [Hlt|Hge].
  - assert (Hh : 0 <= height img) by (unfold height; lia).
    destruct (rotate_90_ccw_dims d img Hr) as [R1 [R2 R3]].
    rewrite R2, R3 by lia. split; [exact R1|split; lia].
  - split; [exact Hr|split; lia].
Qed.

Lemma ensure_portrait_portrait_witness :
  rectangular [[1; 2; 3]; [4; 5; 6]] /\
  (rectangular (ensure_portrait 0 [[1; 2; 3]; [4; 5; 6]])
   /\ width (ensure_portrait 0 [[1; 2; 3]; [4; 5; 6]])
      <= height (ensure_portrait 0 [[1; 2; 3]; [4; 5; 6]])
   /\ height (ensure_portrait 0 [[1; 2; 3]; [4; 5; 6]])
      * width (ensure_portrait 0 [[1; 2; 3]; [4; 5; 6]])
      = height [[1; 2; 3]; [4; 5; 6]] * width [[1; 2; 3]; [4; 5; 6]]).
Proof.
  assert (Hr : rectangular [[1; 2; 3]; [4; 5; 6]]) by (unfold rectangular; repeat constructor).
  split; [exact Hr|]. exact (ensure_portrait_portrait 0 _ Hr).
Defined.

Lemma canonicalize_loop_dims {A : Type} (d : A) (band_of : list (list A) -> Z * Z * Z * Z)
    (n : nat) :
  forall img, rectangular img ->
  rectangular (canonicalize_loop d band_of n img)
  /\ height (canonicalize_loop d band_of n img) * width (canonicalize_loop d band_of n img)
     = height img * width img
  /\ ((1 <= n)%nat \/ width img <= height img ->
      width (canonicalize_loop d band_of n img) <= height (canonicalize_loop d band_of n img)).
Proof.
  induction n as [|n IH]; intros img Hr; cbn [canonicalize_loop].
  - split; [exact Hr|split; [reflexivity|]]. intros [H|H]; [lia|exact H].
  - destruct (band_of img) as [[[bx by_] bw] bh].
    destruct (Z.ltb_spec (height img) (width img)) as [Hlt|Hge].
    + assert (Hh : 0 <= height img) by (unfold height; lia).
      destruct (rotate_90_ccw_dims d img Hr) as [R1 [R2 R3]].
      destruct (IH _ R1) as [I1 [I2 I3]].
      split; [exact I1|split].
      * rewrite I2, R2, R3 by lia. lia.
      * intros _. apply I3. right. rewrite R2, R3 by lia. lia.
    + destruct (2 * bx + bw <? width img).
      * destruct (rotate_180_dims img Hr) as [R1 [R2 R3]].
        destruct (IH _ R1) as [I1 [I2 I3]].
        split; [exact I1|split].
        -- rewrite I2, R2, R3. reflexivity.
        -- intros _. apply I3. right. rewrite R2, R3. exact Hge.
      * split; [exact Hr|split; [reflexivity|intros _; exact Hge]].
Qed.

(** X10.  For a rectangular image and whatever band the detector reports,
    [canonicalize] returns a rectangular image at least as tall as it is
    wide, with as many pixels as the input, also when it gives up after
    its four attempts. *)
Theorem canonicalize_portrait {A : Type} (d : A) (band_of : list (list A) -> Z * Z * Z * Z)
    (img : list (list A)) :
  rectangular img ->
  rectangular (canonicalize d band_of img)
  /\ width (canonicalize d band_of img) <= height (canonicalize d band_of img)
  /\ height (canonicalize d band_of img) * width (canonicalize d band_of img)
     = height img * width img.
Proof.
  intros Hr. unfold canonicalize.
  destruct (canonicalize_loop_dims d band_of 4 img Hr) as [H1 [H2 H3]].
  split; [exact H1|split; [apply H3; left; lia|exact H2]].
Qed.

Lemma canonicalize_portrait_witness :
  rectangular [[1; 2; 3]; [4; 5; 6]] /\
  (rectangular (canonicalize 0 (fun _ => (0, 0, 0, 0)) [[1; 2; 3]; [4; 5; 6]])
   /\ width (canonicalize 0 (fun _ => (0, 0, 0, 0)) [[1; 2; 3]; [4; 5; 6]])
      <= height (canonicalize 0 (fun _ => (0, 0, 0, 0)) [[1; 2; 3]; [4; 5; 6]])
   /\ height (canonicalize 0 (fun _ => (0, 0, 0, 0)) [[1; 2; 3]; [4; 5; 6]])
      * width (canonicalize 0 (fun _ => (0, 0, 0, 0)) [[1; 2; 3]; [4; 5; 6]])
      = height [[1; 2; 3]; [4; 5; 6]] * width [[1; 2; 3]; [4; 5; 6]]).
Proof.
  assert (Hr : rectangular [[1; 2; 3]; [4; 5; 6]]) by (unfold rectangular; repeat constructor).
  split; [exact Hr|]. exact (canonicalize_portrait 0 (fun _ => (0, 0, 0, 0)) _ Hr).
Defined.

End OrientationFacts.

Module QuadDedupFacts.

Import QuadDedup.
Open Scope Z_scope.

Lemma key_eqb_iff (a b : Z * Z * Z * Z) : key_eqb a b = true <-> a = b.
Proof.
  destruct a as [[[a1 a2] a3] a4], b as [[[b1 b2] b3] b4]. unfold key_eqb.
  rewrite !andb_true_iff, !Z.eqb_eq. split.
  - intros [[[-> ->] ->] ->]. reflexivity.
  - intros E. injection E as -> -> -> ->. auto.
Qed.

Lemma existsb_key_iff (k : Z * Z * Z * Z) (seen : list (Z * Z * Z * Z)) :
  existsb (key_eqb k) seen = true <-> In k seen.
Proof.
  rewrite existsb_exists. split.
  - intros [k' [Hin E]]. apply key_eqb_iff in E. subst. exact Hin.
  - intros Hin. exists k. split; [exact Hin|]. apply key_eqb_iff. reflexivity.
Qed.

Lemma dedup_from_spec {quad : Type} (br : quad -> Z * Z * Z * Z) (qs : list quad) :
  forall seen,
  let out := dedup_from br seen qs in
  NoDup (map (dedup_key br) out)
  /\ Forall (fun q => ~ In (dedup_key br q) seen) out
  /\ subseq out qs
  /\ (forall q, In q qs -> In (dedup_key br q) seen
                 \/ exists q', In q' out /\ dedup_key br q' = dedup_key br q).
Proof.
  induction qs as [|q qs IH]; intros seen out; subst out; simpl.
  - split; [constructor|split; [constructor|split; [constructor|intros q []]]].
  - destruct (existsb (key_eqb (dedup_key br q)) seen) eqn:E.
    + apply existsb_key_iff in E.
      destruct (IH seen) as [H1 [H2 [H3 H4]]].
      split; [exact H1|split; [exact H2|split; [apply subseq_skip; exact H3|]]].
      intros q0 [<-|Hq0]; [left; exact E|apply H4, Hq0].
    + destruct (IH (dedup_key br q :: seen)) as [H1 [H2 [H3 H4]]].
      assert (Hn : ~ In (dedup_key br q) seen).
      { intros Hin. apply existsb_key_iff in Hin. congruence. }
      split; [|split; [|split]].
      * simpl. constructor; [|exact H1].
        intros Hin. apply in_map_iff in Hin as [q' [Eq Hq']].
        rewrite Forall_forall in H2. apply (H2 q' Hq'). rewrite Eq. left; reflexivity.
      * constructor; [exact Hn|].
        eapply Forall_impl; [|exact H2]. intros q' Hq' Hin. apply Hq'. right; exact Hin.
      * apply subseq_keep. exact H3.
      * intros q0 [<-|Hq0].
        -- right. exists q. split; [left; reflexivity|reflexivity].
        -- destruct (H4 q0 Hq0) as [[Eq|Hin]|[q' [Hq' Eq]]].
           ++ right. exists q. split; [left; reflexivity|exact Eq].
           ++ left. exact Hin.
           ++ right. exists q'. split; [right; exact Hq'|exact Eq].
Qed.

(** X11.  The deduplication of candidate quads keeps a subsequence of the
    candidates, in their order, whose keys
    [(x//20, y//20, w//20, h//20)] of the bounding rectangles are pairwise
    distinct, and every candidate has a kept quad with the same key. *)
Theorem dedup_quads_spec {quad : Type} (br : quad -> Z * Z * Z * Z) (quads : list quad) :
  NoDup (map (dedup_key br) (dedup_quads br quads))
  /\ subseq (dedup_quads br quads) quads
  /\ (forall q, In q quads ->
        exists q', In q' (dedup_quads br quads) /\ dedup_key br q' = dedup_key br q).
Proof.
  destruct (dedup_from_spec br quads []) as [H1 [_ [H3 H4]]].
  split; [exact H1|split; [exact H3|]].
  intros q Hq. destruct (H4 q Hq) as [[]|H]. exact H.
Qed.

End QuadDedupFacts.

Module TrainGeomFacts.

Import TrainGeom.
Open Scope R_scope.

Lemma den_nonzero (den : R) : ~ Rabs den < / 1000000 -> den <> 0.
Proof.
  intros H E. apply H. rewrite E, Rabs_R0. apply Rinv_0_lt_compat. lra.
Qed.

(** X12.  [intersect] returns [None] exactly when the absolute value of
    its denominator is below [1e-6]; otherwise the point it returns lies
    on the line through [p1], [p2] and on the line through [p3], [p4]. *)
Theorem intersect_on_both_lines (x1 y1 x2 y2 x3 y3 x4 y4 : R) :
  match intersect (x1, y1) (x2, y2) (x3, y3) (x4, y4) with
  | None => Rabs (intersect_den (x1, y1) (x2, y2) (x3, y3) (x4, y4)) < / 1000000
  | Some (px, py) =>
      ~ Rabs (intersect_den (x1, y1) (x2, y2) (x3, y3) (x4, y4)) < / 1000000
      /\ (x2 - x1) * (py - y1) = (y2 - y1) * (px - x1)
      /\ (x4 - x3) * (py - y3) = (y4 - y3) * (px - x3)
  end.
Proof.
  unfold intersect, intersect_den.
  destruct (Rlt_dec _ _) as [Hlt|Hge]; [exact Hlt|].
  pose proof (den_nonzero _ Hge) as Hd.
  split; [exact Hge|split]; field; exact Hd.
Qed.

(** X13.  [intersect] does not depend on the order of the two lines nor on
    the order of the two points given for each line. *)
Theorem intersect_symmetric (p1 p2 p3 p4 : R * R) :
  intersect p3 p4 p1 p2 = intersect p1 p2 p3 p4
  /\ intersect p2 p1 p3 p4 = intersect p1 p2 p3 p4
  /\ intersect p1 p2 p4 p3 = intersect p1 p2 p3 p4.
Proof.
  destruct p1 as [x1 y1], p2 as [x2 y2], p3 as [x3 y3], p4 as [x4 y4].
  unfold intersect.
  set (den := (x1 - x2) * (y3 - y4) - (y1 - y2) * (x3 - x4)).
  assert (E1 : (x3 - x4) * (y1 - y2) - (y3 - y4) * (x1 - x2) = - den) by (unfold den; ring).
  assert (E2 : (x2 - x1) * (y3 - y4) - (y2 - y1) * (x3 - x4) = - den) by (unfold den; ring).
  assert (E3 : (x1 - x2) * (y4 - y3) - (y1 - y2) * (x4 - x3) = - den) by (unfold den; ring).
  rewrite E1, E2, E3, Rabs_Ropp.
  destruct (Rlt_dec (Rabs den) (/ 1000000)) as [Hlt|Hge]; [auto|].
  pose proof (den_nonzero _ Hge) as Hd.
  split; [|split]; f_equal; f_equal; field; exact Hd.
Qed.

(** X14.  The helpers [line_y] and [line_x] of [detect_quad_lsd] return
    [None] exactly for a (near-)vertical, respectively (near-)horizontal,
    line (coordinate difference below [1e-6]); otherwise the point they
    compute lies on the line through the two endpoints of [l]. *)
Theorem line_y_line_x_on_line (x1 y1 x2 y2 : R) :
  (forall x, match line_y (x1, y1, x2, y2) x with
             | None => Rabs (x2 - x1) < / 1000000
             | Some v => ~ Rabs (x2 - x1) < / 1000000
                         /\ (x2 - x1) * (v - y1) = (y2 - y1) * (x - x1)
             end)
  /\ (forall y, match line_x (x1, y1, x2, y2) y with
                | None => Rabs (y2 - y1) < / 1000000
                | Some u => ~ Rabs (y2 - y1) < / 1000000
                            /\ (x2 - x1) * (y - y1) = (y2 - y1) * (u - x1)
                end).
Proof.
  split; intros z; unfold line_y, line_x;
    destruct (Rlt_dec _ _) as [Hlt|Hge]; try exact Hlt;
    pose proof (den_nonzero _ Hge) as Hd; (split; [exact Hge|]); field; exact Hd.
Qed.

End TrainGeomFacts.

Module JsonSerializeFacts.

Import JsonSerialize.






End JsonSerializeFacts.

Module CropQuestionsFacts.

Import ManualCheck CropQuestions.
Open Scope nat_scope.

Definition count_page (i : nat) (l : list cropped) : nat :=
  length (filter (fun q => Nat.eqb (page_number q) (S i)) l).

Definition sum_nat (l : list nat) : nat := fold_right plus 0 l.

Lemma sum_indicator (p n : nat) :
  forall s, (s < p <= s + n)%nat ->
  sum_nat (map (fun i => if Nat.eqb p (S i) then 1 else 0)%nat (seq s n)) = 1%nat.
Proof.
  induction n as [|n IH]; intros s Hs; [lia|].
  simpl. destruct (Nat.eqb_spec p (S s)) as [E|E].
  - assert (H0 : forall k t, (p <= t)%nat ->
      sum_nat (map (fun i => if Nat.eqb p (S i) then 1 else 0)%nat (seq t k)) = 0%nat).
    { induction k as [|k IHk]; intros t Ht; [reflexivity|].
      simpl. destruct (Nat.eqb_spec p (S t)); [lia|]. apply IHk. lia. }
    rewrite H0 by lia. reflexivity.
  - apply IH. lia.
Qed.

Lemma sum_counts (n : nat) (l : list cropped) :
  Forall (fun q => (1 <= page_number q <= n)%nat) l ->
  sum_nat (map (fun i => count_page i l) (seq 0 n)) = length l.
Proof.
  induction l as [|q l IH]; intros Hf.
  - unfold count_page. simpl. induction (seq 0 n); simpl; auto.
  - inversion Hf as [|? ? Hq Hl]; subst.
    assert (E : forall xs, sum_nat (map (fun i => count_page i (q :: l)) xs)
                = (sum_nat (map (fun i => if Nat.eqb (page_number q) (S i) then 1 else 0) xs)
                   + sum_nat (map (fun i => count_page i l) xs))%nat).
    { induction xs as [|x xs IHx]; [reflexivity|].
      simpl. rewrite IHx. unfold count_page. simpl.
      destruct (Nat.eqb (page_number q) (S x)); simpl; lia. }
    rewrite E, IH by exact Hl. rewrite sum_indicator by lia. reflexivity.
Qed.

Section Pipeline.

Context {img fname : Type}.
Variable align : img -> fname -> nat -> image.

Lemma pages_from_spec (labels : list label) (pages : list (img * fname)) :
  forall idx,
  Forall (fun q => (S idx <= page_number q <= idx + length pages)%nat
                   /\ exists lb, In lb labels /\ label_name lb = question_name q
                                 /\ image_name lb = page_name (pred (page_number q)))
    (pages_from align idx pages labels).
Proof.
  induction pages as [|[im fn] ps IH]; intros idx; simpl; [constructor|].
  apply Forall_app. split.
  - unfold page_questions. apply Forall_forall. intros q Hq.
    apply in_flat_map in Hq as [lb [Hlb Hq]].
    apply filter_In in Hlb as [Hlb Hname]. apply String.eqb_eq in Hname.
    destruct (crop_bbox_from_template_coords _ _ _); [|destruct Hq].
    destruct Hq as [<-|[]]. simpl. split; [lia|].
    exists lb. auto.
  - eapply Forall_impl; [|apply IH]. intros q [Hr Hl]. split; [lia|exact Hl].
Qed.

(** X17.  For every alignment result and every [label.csv],
    [crop_questions_from_images] reports [total_questions_cropped] equal
    to the sum of [questions_per_page]; every cropped question has a
    page number between 1 and the number of images, and comes from a row
    of [label.csv] with the same [label_name] whose [image_name] is that
    page's name [f"{page}.jpg"]. *)
Theorem crop_questions_consistent (image_list : list img) (filenames : list fname)
    (labels : list label) :
  let '(cq, s) := crop_questions_from_images align image_list filenames labels in
  total_questions_cropped s = sum_nat (map snd (questions_per_page s))
  /\ Forall (fun q => (1 <= page_number q <= length image_list)%nat
                      /\ exists lb, In lb labels /\ label_name lb = question_name q
                                    /\ image_name lb = page_name (pred (page_number q))) cq.
Proof.
  unfold crop_questions_from_images. simpl.
  pose proof (pages_from_spec labels (combine image_list filenames) 0) as Hs.
  rewrite length_combine in Hs.
  assert (Hf : Forall (fun q => (1 <= page_number q <= length image_list)%nat
                      /\ exists lb, In lb labels /\ label_name lb = question_name q
                                    /\ image_name lb = page_name (pred (page_number q)))
                 (pages_from align 0 (combine image_list filenames) labels)).
  { eapply Forall_impl; [|exact Hs]. intros q [Hr Hl]. split; [lia|exact Hl]. }
  split; [|exact Hf].
  rewrite map_map. simpl.
  symmetry. apply sum_counts.
  eapply Forall_impl; [|exact Hf]. intros q [Hr _]. exact Hr.
Qed.

End Pipeline.

End CropQuestionsFacts.

Module BestWarpFacts.

Import Confidence ConfidenceFacts BestWarp.
Open Scope Q_scope.

Section Select.

Context {quad : Type}.
Variable layout_score : quad -> Q.
Variable refine : quad -> quad.
Variable sharpness : quad -> Q.

Definition score_ge (a b : quad) : Prop := layout_score b <= layout_score a.

Lemma insert_desc_perm (x : quad) (l : list quad) :
  Permutation (insert_desc layout_score x l) (x :: l).
Proof.
  induction l as [|y l IH]; simpl; [reflexivity|].
  destruct (Qltb (layout_score y) (layout_score x)); [reflexivity|].
  rewrite IH. apply perm_swap.
Qed.

Lemma sort_desc_perm_aux (l : list quad) :
  forall acc, Permutation (fold_left (fun acc x => insert_desc layout_score x acc) l acc)
                          (acc ++ l).
Proof.
  induction l as [|x l IH]; intros acc; simpl; [rewrite app_nil_r; reflexivity|].
  rewrite IH, insert_desc_perm. simpl.
  rewrite <- Permutation_middle. reflexivity.
Qed.

Lemma sort_desc_perm (l : list quad) : Permutation (sort_desc layout_score l) l.
Proof. unfold sort_desc. apply (sort_desc_perm_aux l []). Qed.

Lemma insert_desc_sorted (x : quad) (l : list quad) :
  StronglySorted score_ge l -> StronglySorted score_ge (insert_desc layout_score x l).
Proof.
  induction l as [|y l IH]; intros Hs; simpl; [repeat constructor|].
  apply StronglySorted_inv in Hs as [Hs Hy].
  destruct (Qltb (layout_score y) (layout_score x)) eqn:E.
  - apply Qltb_iff in E.
    constructor; [constructor; assumption|].
    constructor; [unfold score_ge; apply Qlt_le_weak, E|].
    eapply Forall_impl; [|exact Hy]. intros z Hz. unfold score_ge in *.
    apply (Qle_trans _ _ _ Hz). apply Qlt_le_weak, E.
  - constructor; [apply IH, Hs|].
    apply Forall_forall. intros z Hz.
    apply (Permutation_in _ (insert_desc_perm x l)) in Hz as [<-|Hz].
    + unfold score_ge. apply Qnot_lt_le. intros H. apply Qltb_iff in H. congruence.
    + rewrite Forall_forall in Hy. apply Hy, Hz.
Qed.

Lemma sort_desc_sorted (l : list quad) : StronglySorted score_ge (sort_desc layout_score l).
Proof.
  unfold sort_desc. assert (H : StronglySorted score_ge []) by constructor.
  revert H. generalize (@nil quad). induction l as [|x l IH]; intros acc H; simpl; [exact H|].
  apply IH, insert_desc_sorted, H.
Qed.

Lemma StronglySorted_app_inv {A} (R : A -> A -> Prop) (l1 l2 : list A) :
  StronglySorted R (l1 ++ l2) -> forall a b, In a l1 -> In b l2 -> R a b.
Proof.
  induction l1 as [|x l1 IH]; simpl; intros Hs a b Ha Hb; [destruct Ha|].
  apply StronglySorted_inv in Hs as [Hs Hx]. destruct Ha as [<-|Ha].
  - rewrite Forall_forall in Hx. apply Hx, in_or_app. right; exact Hb.
  - apply IH; assumption.
Qed.

Lemma select_spec (l : list quad) :
  forall bv b,
  let r := fold_left (select_step layout_score sharpness) l (bv, b) in
  (r = (bv, b) /\ forall q, In q l -> total layout_score sharpness q <= bv)
  \/ (exists l1 q l2, l = l1 ++ q :: l2 /\ r = (total layout_score sharpness q, Some q)
      /\ bv < total layout_score sharpness q
      /\ (forall q', In q' l1 -> total layout_score sharpness q' < total layout_score sharpness q)
      /\ (forall q', In q' l2 -> total layout_score sharpness q' <= total layout_score sharpness q)).
Proof.
  induction l as [|x l IH]; intros bv b r; subst r; simpl.
  - left. split; [reflexivity|intros q []].
  - destruct (Qltb bv (total layout_score sharpness x)) eqn:E.
    + apply Qltb_iff in E.
      destruct (IH (total layout_score sharpness x) (Some x)) as [[Hr Hle]|[l1 [q [l2 [Hl [Hr [Hlt [H1 H2]]]]]]]].
      * right. exists [], x, l. split; [reflexivity|split; [exact Hr|split; [exact E|]]].
        split; [intros q' []|exact Hle].
      * right. exists (x :: l1), q, l2.
        split; [rewrite Hl; reflexivity|split; [exact Hr|split; [apply (Qlt_trans _ _ _ E Hlt)|]]].
        split; [|exact H2]. intros q' [<-|Hq']; [exact Hlt|apply H1, Hq'].
    + assert (Hx : total layout_score sharpness x <= bv).
      { apply Qnot_lt_le. intros H. apply Qltb_iff in H. congruence. }
      destruct (IH bv b) as [[Hr Hle]|[l1 [q [l2 [Hl [Hr [Hlt [H1 H2]]]]]]]].
      * left. split; [exact Hr|]. intros q [<-|Hq]; [exact Hx|apply Hle, Hq].
      * right. exists (x :: l1), q, l2.
        split; [rewrite Hl; reflexivity|split; [exact Hr|split; [exact Hlt|]]].
        split; [|exact H2]. intros q' [<-|Hq']; [apply (Qle_lt_trans _ _ _ Hx Hlt)|apply H1, Hq'].
Qed.

(** X18.  When there is at least one candidate and every total
    [sharp * (1 + 0.3 s)] exceeds [-1e9], [best_warp] returns the refined
    version of a candidate [q] among the first four of the candidates
    sorted by decreasing layout score [s] (a reordering of the candidates
    in which every candidate left out scores at most as much as every one
    kept); [q] has the greatest total among those four, and every one of
    them placed before [q] has a strictly smaller total. *)
Theorem best_warp_choice (candidates : list quad) :
  candidates <> [] ->
  (forall q, In q candidates -> - (1000000000 # 1) < total layout_score sharpness q) ->
  let sorted := sort_desc layout_score candidates in
  let top := firstn 4 sorted in
  Permutation sorted candidates
  /\ (forall a b, In a top -> In b (skipn 4 sorted) -> layout_score b <= layout_score a)
  /\ exists q l1 l2,
       best_warp layout_score refine sharpness candidates = Chosen (refine q)
       /\ top = l1 ++ q :: l2
       /\ (forall q', In q' top -> total layout_score sharpness q' <= total layout_score sharpness q)
       /\ (forall q', In q' l1 -> total layout_score sharpness q' < total layout_score sharpness q).
Proof.
  intros Hne Hgt. cbv zeta.
  assert (Hp : Permutation (sort_desc layout_score candidates) candidates)
    by apply sort_desc_perm.
  assert (Hx : exists x, In x (firstn 4 (sort_desc layout_score candidates))
                         /\ In x candidates).
  { destruct (sort_desc layout_score candidates) as [|x xs] eqn:Es.
    - apply Permutation_nil in Hp. contradiction.
    - exists x. split; [left; reflexivity|].
      apply (Permutation_in _ Hp). left; reflexivity. }
  split; [exact Hp|split].
  - intros a b Ha Hb.
    pose proof (sort_desc_sorted candidates) as Hs.
    rewrite <- (firstn_skipn 4 (sort_desc layout_score candidates)) in Hs.
    exact (StronglySorted_app_inv _ _ _ Hs a b Ha Hb).
  - assert (Hb : best_warp layout_score refine sharpness candidates =
      match snd (fold_left (select_step layout_score sharpness)
                   (firstn 4 (sort_desc layout_score candidates))
                   (-(1000000000 # 1), None)) with
      | None => Unpack_error
      | Some q => Chosen (refine q)
      end) by (destruct candidates; [contradiction|reflexivity]).
    rewrite Hb.
    destruct (select_spec (firstn 4 (sort_desc layout_score candidates))
                (-(1000000000 # 1)) None)
      as [[Hr Hle]|[l1 [q [l2 [Hl [Hr [Hlt [H1 H2]]]]]]]].
    + exfalso. destruct Hx as [x [Ht Hc]].
      pose proof (Hgt x Hc) as G. pose proof (Hle x Ht) as L.
      apply (Qlt_irrefl (total layout_score sharpness x)).
      apply (Qle_lt_trans _ _ _ L G).
    + rewrite Hr. exists q, l1, l2.
      split; [reflexivity|split; [exact Hl|split; [|exact H1]]].
      intros q' Hq'. rewrite Hl in Hq'. apply in_app_or in Hq' as [Hq'|[<-|Hq']].
      * apply Qlt_le_weak, H1, Hq'.
      * apply Qle_refl.
      * apply H2, Hq'.
Qed.

End Select.

Definition sample_score (n : nat) : Q := inject_Z (Z.of_nat n).
Definition sample_sharpness (n : nat) : Q := 1.
Definition sample_refine (n : nat) : nat := n.
Definition sample_candidates : list nat := [1; 3; 2; 5; 4]%nat.

Lemma best_warp_choice_witness :
  sample_candidates <> []
  /\ (forall q, In q sample_candidates ->
        - (1000000000 # 1) < total sample_score sample_sharpness q)
  /\ (let sorted := sort_desc sample_score sample_candidates in
      let top := firstn 4 sorted in
      Permutation sorted sample_candidates
      /\ (forall a b, In a top -> In b (skipn 4 sorted) -> sample_score b <= sample_score a)
      /\ exists q l1 l2,
           best_warp sample_score sample_refine sample_sharpness sample_candidates = Chosen (sample_refine q)
           /\ top = l1 ++ q :: l2
           /\ (forall q', In q' top ->
                 total sample_score sample_sharpness q' <= total sample_score sample_sharpness q)
           /\ (forall q', In q' l1 ->
                 total sample_score sample_sharpness q' < total sample_score sample_sharpness q)).
Proof.
  assert (H1 : sample_candidates <> []) by discriminate.
  assert (H2 : forall q, In q sample_candidates ->
                 - (1000000000 # 1) < total sample_score sample_sharpness q).
  { intros q Hq. unfold sample_candidates in Hq.
    repeat (destruct Hq as [<-|Hq]; [vm_compute; reflexivity|]). destruct Hq. }
  split; [exact H1|split; [exact H2|]].
  exact (best_warp_choice sample_score sample_refine sample_sharpness sample_candidates H1 H2).
Defined.

End BestWarpFacts.
